(** * pspipe_utils.simulation: noise and foreground covariance tensors,
      and the noise realization dictionary

    A shallow embedding of [pspipe_utils/simulation.py]:
    - [get_noise_matrix_spin0and2] and [get_foreground_matrix] build the
      three-dimensional tensors [n, n, lmax] from tabulated spectra;
    - [generate_noise_alms] draws one realization per split (and per
      component) and stores it in a dictionary.

    Conventions of the embedding.
    - A Python exception is the [Raise] case of [result]; statements are
      sequenced with the bind of that error monad.
    - A numpy float is an exact rational, or one of IEEE's [inf], [-inf],
      [nan].  Rounding, overflow and the sign of zero are not modelled:
      equations between an entry and an expression are between terms built
      by the same operations in the same order as the Python expression.
    - A numpy array of rank 1 is a [list npfloat]; the tensors are lists of
      lists of lists, indexed [a !! i], [a !! j], [a !! l].
    - The module calls collaborators it does not define: [so_spectra.read_ps],
      [np.loadtxt] and [curvedsky.rand_alm] are parameters of the
      development, [fill_sym_mat] is modelled from its documented contract. *)

From Stdlib Require Import QArith Lqa.
From stdpp Require Import gmap strings list.

Local Open Scope Z_scope.

(** ** Python exceptions and the error monad *)

Inductive exn : Type :=
  | ValueError          (* shape mismatch, negative dimension, bad unpack *)
  | IndexError          (* index out of range, slicing a scalar *)
  | UnboundLocalError   (* a local read before any assignment *)
  | ExternalError (msg : string).  (* raised inside a collaborator *)

Inductive result (A : Type) : Type :=
  | Ok (a : A)
  | Raise (e : exn).
Arguments Ok {A} a.
Arguments Raise {A} e.

Definition is_Ok {A} (r : result A) : Prop := ∃ a, r = Ok a.
Definition is_Raise {A} (r : result A) : Prop := ∃ e, r = Raise e.

#[global] Instance result_ret : MRet result := λ A a, Ok a.
#[global] Instance result_bind : MBind result := λ A B f r,
  match r with
  | Ok a => f a
  | Raise e => Raise e
  end.

(** [for x in xs: s = body(s, x)], stopping at the first exception. *)
Fixpoint foldM {S A : Type} (body : S → A → result S) (s : S) (xs : list A)
  : result S :=
  match xs with
  | [] => Ok s
  | x :: xs' => s' ← body s x; foldM body s' xs'
  end.

(** [enumerate(xs)]. *)
Fixpoint enumerate_from {A : Type} (i : nat) (xs : list A) : list (nat * A) :=
  match xs with
  | [] => []
  | x :: xs' => (i, x) :: enumerate_from (S i) xs'
  end.
Definition enumerate {A : Type} (xs : list A) : list (nat * A) :=
  enumerate_from 0 xs.

(** [range(n)]: empty when [n <= 0]. *)
Definition range (n : Z) : list nat := seq 0 (Z.to_nat n).

(** [xs[:stop]]: the first [stop] items, or all but the last [-stop] ones
    when [stop] is negative. *)
Definition slice_to {A : Type} (stop : Z) (xs : list A) : list A :=
  if decide (0 ≤ stop) then take (Z.to_nat stop) xs
  else take (length xs - Z.to_nat (- stop)) xs.

(** ** numpy floats *)

Inductive npfloat : Type :=
  | Fin (q : Q)
  | Inf (negative : bool)
  | NaN.

#[global] Instance npfloat_inhabited : Inhabited npfloat := populate (Fin 0).

Definition of_Z (z : Z) : npfloat := Fin (inject_Z z).

(** [np.pi] is the double nearest to pi, 0x400921FB54442D18. *)
Definition np_pi : npfloat := Fin (884279719003555 # 281474976710656).

Definition Qneg (q : Q) : bool := negb (Qle_bool 0 q).

Definition is_finite (x : npfloat) : bool :=
  match x with Fin _ => true | _ => false end.

Definition is_zero (x : npfloat) : bool :=
  match x with Fin q => Qeq_bool q 0 | _ => false end.

Definition np_add (x y : npfloat) : npfloat :=
  match x, y with
  | NaN, _ | _, NaN => NaN
  | Fin a, Fin b => Fin (a + b)
  | Inf s, Fin _ | Fin _, Inf s => Inf s
  | Inf s, Inf s' => if Bool.eqb s s' then Inf s else NaN
  end.

Definition np_mul (x y : npfloat) : npfloat :=
  match x, y with
  | NaN, _ | _, NaN => NaN
  | Fin a, Fin b => Fin (a * b)
  | Inf s, Fin b | Fin b, Inf s =>
      if Qeq_bool b 0 then NaN else Inf (xorb s (Qneg b))
  | Inf s, Inf s' => Inf (xorb s s')
  end.

(** The value of [x / 0]: numpy does not raise, it warns and yields
    [nan] for [0 / 0] and an infinity otherwise. *)
Definition divide_by_zero (x : npfloat) : npfloat :=
  match x with
  | Fin a => if Qeq_bool a 0 then NaN else Inf (Qneg a)
  | Inf s => Inf s
  | NaN => NaN
  end.

Definition np_div (x y : npfloat) : npfloat :=
  if is_zero y then divide_by_zero x
  else
    match x, y with
    | NaN, _ | _, NaN => NaN
    | Fin a, Fin b => Fin (a / b)
    | Fin _, Inf _ => Fin 0
    | Inf s, Fin b => Inf (xorb s (Qneg b))
    | Inf _, Inf _ => NaN
    end.

(** ** Rank-1 arrays: element-wise arithmetic.
    The two operands of every array-array operation of the module are
    columns of one table cut at the same length. *)

Abbreviation array := (list npfloat).

Declare Scope np_scope.
Delimit Scope np_scope with np.

(** array (op) scalar, scalar / array, array (op) array *)
Definition mul_s (xs : array) (c : npfloat) : array := (λ x, np_mul x c) <$> xs.
Definition add_s (xs : array) (c : npfloat) : array := (λ x, np_add x c) <$> xs.
Definition div_s (xs : array) (c : npfloat) : array := (λ x, np_div x c) <$> xs.
Definition s_div (c : npfloat) (xs : array) : array := (λ x, np_div c x) <$> xs.
Definition mul_a (xs ys : array) : array := zip_with np_mul xs ys.
Definition add_a (xs ys : array) : array := zip_with np_add xs ys.
Definition div_a (xs ys : array) : array := zip_with np_div xs ys.

Notation "xs *@ c" := (mul_s xs c) (at level 40, left associativity) : np_scope.
Notation "xs +@ c" := (add_s xs c) (at level 50, left associativity) : np_scope.
Notation "xs /@ c" := (div_s xs c) (at level 40, left associativity) : np_scope.
Notation "c @/ xs" := (s_div c xs) (at level 40, left associativity) : np_scope.
Notation "xs @*@ ys" := (mul_a xs ys) (at level 40, left associativity) : np_scope.
Notation "xs @+@ ys" := (add_a xs ys) (at level 50, left associativity) : np_scope.
Notation "xs @/@ ys" := (div_a xs ys) (at level 40, left associativity) : np_scope.

(** ** Tensors of rank 3 *)

Abbreviation matrix := (list (list npfloat)).
Abbreviation tensor := (list (list (list npfloat))).

(** [a[i, j, :]] and [a[i, j, k]], when the indices are in range. *)
Definition fibre (a : tensor) (i j : nat) : option array :=
  a !! i ≫= (.!! j).
Definition entry (a : tensor) (i j k : nat) : option npfloat :=
  fibre a i j ≫= (.!! k).

(** [np.zeros((n, m, d))]. *)
Definition np_zeros (n m : nat) (d : Z) : result tensor :=
  if decide (d < 0) then Raise ValueError
  else Ok (replicate n (replicate m (replicate (Z.to_nat d) (Fin 0)))).

(** Broadcasting a rank-1 value into a slice of [len] items: the lengths
    agree, or the value has exactly one item that is repeated. *)
Definition broadcast_to (len : nat) (v : array) : result array :=
  if decide (length v = len) then Ok v
  else if decide (length v = 1%nat) then Ok (replicate len (v !!! 0%nat))
  else Raise ValueError.

(** [a[c1, c2, start:stop] = v].  The bounds are clipped to the axis. *)
Definition setitem (a : tensor) (c1 c2 : nat) (start stop : nat) (v : array)
  : result tensor :=
  match fibre a c1 c2 with
  | None => Raise IndexError
  | Some old =>
      let lo := (start `min` length old)%nat in
      let hi := (stop `min` length old)%nat in
      v' ← broadcast_to (hi - lo) v;
      let new := take lo old ++ v' ++ drop (lo + (hi - lo)) old in
      Ok (alter (<[c2 := new]>) c1 a)
  end.

(** [a[:, :, k]]. *)
Definition getslice (a : tensor) (k : nat) : matrix :=
  (λ plane : matrix, (λ f : array, f !!! k) <$> plane) <$> a.

(** [a[:, :, k] = m]. *)
Definition setslice (a : tensor) (k : nat) (m : matrix) : tensor :=
  imap (λ i (plane : matrix),
          imap (λ j (f : array), <[k := (m !!! i) !!! j]> f) plane) a.

(** Modelled from the spec: [fill_sym_mat] is called but neither defined
    nor imported in the module.  Its contract: given a square matrix with
    only the upper triangle populated, it returns the full symmetric
    matrix, diagonal unchanged, lower triangle set from the transpose of
    the upper triangle. *)
Definition fill_sym_mat (m : matrix) : matrix :=
  imap (λ i (row : array),
          imap (λ j x, if decide (i ≤ j)%nat then x else (m !!! j) !!! i) row) m.

(** The loop [for i in range(lmax): a[:,:,i] = fill_sym_mat(a[:,:,i])]. *)
Definition symmetrize (a : tensor) (lmax : Z) : result tensor :=
  foldM (λ a i, Ok (setslice a i (fill_sym_mat (getslice a i)))) a (range lmax).

(** ** Tabulated spectra *)

(** One line of a noise file as [so_spectra.read_ps] returns it: the
    multipole and the value of each named spectrum. *)
Record ps_row : Type := { row_l : npfloat; row_ps : string → npfloat }.

(** The two values [l, nl] of [read_ps]: the multipole column and the
    dictionary from a spectrum name to its column. *)
Definition ps_l (tbl : list ps_row) : array := row_l <$> tbl.
Definition ps_nl (tbl : list ps_row) (name : string) : array :=
  (λ r, row_ps r name) <$> tbl.

(** [l, fl_all = np.loadtxt(..., unpack=True)] on a table of two columns.
    An empty table cannot be unpacked into two names; a table of one line
    is squeezed to rank 1, so that both names are bound to scalars and the
    later [fl_all[:lmax-2]] raises. *)
Definition unpack (rows : list (npfloat * npfloat)) : result (array * array) :=
  match rows with
  | [] => Raise ValueError
  | [_] => Raise IndexError
  | _ => Ok (fst <$> rows, snd <$> rows)
  end.

(** ** The realization dictionary *)

(** The keys of [nlms]: a split index [k], or a tuple [(component, k)]. *)
Inductive key : Type :=
  | KSplit (k : nat)
  | KComp (c : string) (k : nat).

#[global] Instance key_eq_dec : EqDecision key.
Proof. solve_decision. Defined.

#[global] Instance key_countable : Countable key :=
  inj_countable'
    (λ x, match x with KSplit k => inl k | KComp c k => inr (c, k) end)
    (λ y, match y with inl k => KSplit k | inr (c, k) => KComp c k end)
    (λ x, match x with KSplit _ => eq_refl | KComp _ _ => eq_refl end).

Inductive dtype : Type := complex64 | complex128.

(** ** The three functions of the module *)

Section Simulation.

(** [so_spectra.read_ps(path, spectra=...)]. *)
Variable read_ps : string → list string → result (list ps_row).
(** [np.loadtxt(path)] on a file of two columns. *)
Variable loadtxt : string → result (list (npfloat * npfloat)).

(** The process-wide random source, the type of a realization, and
    [curvedsky.rand_alm(ps, lmax=lmax, dtype=dtype)], which reads and
    advances the random source. *)
Variable Rng Alm : Type.
Variable rand_alm :
  option tensor → Z → dtype → Rng → result (Alm * Rng).

Definition spectra : list string :=
  ["TT"; "TE"; "TB"; "ET"; "BT"; "EE"; "EB"; "BE"; "BB"].

Definition noise_file (noise_dir ar1 ar2 survey : string) : string :=
  noise_dir +:+ "/mean_" +:+ ar1 +:+ "x" +:+ ar2 +:+ "_" +:+ survey
    +:+ "_noise.dat".

Definition fg_file (fg_dir freq1 freq2 : string) : string :=
  fg_dir +:+ "/fg_" +:+ freq1 +:+ "x" +:+ freq2 +:+ "_TT.dat".

Local Open Scope np_scope.

(** The body of the double loop of [get_noise_matrix_spin0and2]; the
    state is the local [l] (unbound before the first file is read) and
    the two tensors. *)
Definition noise_pair (noise_dir survey : string) (lmax nsplits : Z)
    (c1 : nat) (ar1 : string)
    (st : option array * tensor * tensor) (p : nat * string)
  : result (option array * tensor * tensor) :=
  let '(c2, ar2) := p in
  let '(l0, nl_array_t, nl_array_pol) := st in
  if decide (c2 < c1)%nat then Ok st  (* if c1 > c2: continue *)
  else
    tbl ← read_ps (noise_file noise_dir ar1 ar2 survey) spectra;
    let l := ps_l tbl in
    let nl := ps_nl tbl in
    let nl_t := slice_to lmax (nl "TT") in
    let nl_pol :=
      (slice_to lmax (nl "EE") @+@ slice_to lmax (nl "BB")) /@ of_Z 2 in
    let l := slice_to lmax l in
    nl_array_t ← setitem nl_array_t c1 c2 0 (Z.to_nat lmax)
      (nl_t *@ of_Z nsplits *@ of_Z 2 *@ np_pi @/@ (l @*@ (l +@ of_Z 1)));
    nl_array_pol ← setitem nl_array_pol c1 c2 0 (Z.to_nat lmax)
      (nl_pol *@ of_Z nsplits *@ of_Z 2 *@ np_pi @/@ (l @*@ (l +@ of_Z 1)));
    Ok (Some l, nl_array_t, nl_array_pol).

Definition get_noise_matrix_spin0and2
    (noise_dir survey : string) (arrays : list string) (lmax nsplits : Z)
  : result (array * tensor * tensor) :=
  let n_arrays := length arrays in
  nl_array_t ← np_zeros n_arrays n_arrays lmax;
  nl_array_pol ← np_zeros n_arrays n_arrays lmax;
  st ← foldM (λ st '(c1, ar1),
               foldM (noise_pair noise_dir survey lmax nsplits c1 ar1)
                     st (enumerate arrays))
             (None, nl_array_t, nl_array_pol) (enumerate arrays);
  let '(l, nl_array_t, nl_array_pol) := st in
  nl_array_t ← symmetrize nl_array_t lmax;
  nl_array_pol ← symmetrize nl_array_pol lmax;
  match l with
  | None => Raise UnboundLocalError
  | Some l => Ok (l, nl_array_t, nl_array_pol)
  end.

(** The body of the double loop of [get_foreground_matrix]. *)
Definition fg_pair (fg_dir : string) (lmax : Z) (c1 : nat) (freq1 : string)
    (st : option array * tensor) (p : nat * string)
  : result (option array * tensor) :=
  let '(c2, freq2) := p in
  let '(l0, fl_array) := st in
  if decide (c2 < c1)%nat then Ok st  (* if c1 > c2: continue *)
  else
    rows ← loadtxt (fg_file fg_dir freq1 freq2);
    '(l, fl_all) ← unpack rows;
    let fl_all :=
      fl_all @*@ (np_mul (of_Z 2) np_pi @/ (l @*@ (l +@ of_Z 1))) in
    fl_array ← setitem fl_array c1 c2 2 (Z.to_nat lmax)
      (slice_to (lmax - 2) fl_all);
    Ok (Some l, fl_array).

Definition get_foreground_matrix
    (fg_dir : string) (all_freqs : list string) (lmax : Z)
  : result (array * tensor) :=
  let nfreqs := length all_freqs in
  fl_array ← np_zeros nfreqs nfreqs lmax;
  st ← foldM (λ st '(c1, freq1),
               foldM (fg_pair fg_dir lmax c1 freq1) st (enumerate all_freqs))
             (None, fl_array) (enumerate all_freqs);
  let '(l, fl_array) := st in
  fl_array ← symmetrize fl_array lmax;
  match l with
  | None => Raise UnboundLocalError
  | Some l => Ok (l, fl_array)
  end.

(** One draw stored under [k]: [nlms[k] = curvedsky.rand_alm(ps, ...)]. *)
Definition draw (ps : option tensor) (lmax : Z) (dt : dtype) (k : key)
    (st : gmap key Alm * Rng) : result (gmap key Alm * Rng) :=
  let '(nlms, g) := st in
  '(alm, g') ← rand_alm ps lmax dt g;
  Ok (<[k := alm]> nlms, g').

Definition generate_noise_alms
    (nl_array_t : tensor) (lmax n_splits ncomp : Z)
    (nl_array_pol : option tensor) (dt : dtype) (g : Rng)
  : result (gmap key Alm * Rng) :=
  let nlms : gmap key Alm := ∅ in
  if decide (ncomp = 1) then
    foldM (λ st k, draw (Some nl_array_t) lmax dt (KSplit k) st)
          (nlms, g) (range n_splits)
  else
    foldM (λ st k,
             st ← draw (Some nl_array_t) lmax dt (KComp "T" k) st;
             st ← draw nl_array_pol lmax dt (KComp "E" k) st;
             draw nl_array_pol lmax dt (KComp "B" k) st)
          (nlms, g) (range n_splits).

End Simulation.

Arguments draw {Rng Alm} rand_alm ps lmax dt k st.
Arguments generate_noise_alms {Rng Alm} rand_alm nl_array_t lmax n_splits ncomp
  nl_array_pol dt g.

(** ** Concrete collaborators, for running the functions on examples *)

(** A directory: the tables found under each path. *)
Definition lookup_file {A : Type} (fs : list (string * A)) (path : string)
  : result A :=
  match list_find (λ f, f.1 = path) fs with
  | Some (_, f) => Ok f.2
  | None => Raise (ExternalError "No such file or directory")
  end.

Definition mk_row (l tt ee bb : Z) : ps_row :=
  {| row_l := of_Z l;
     row_ps := λ name,
       if decide (name = "TT") then of_Z tt
       else if decide (name = "EE") then of_Z ee
       else if decide (name = "BB") then of_Z bb
       else Fin 0 |}.

(** Noise tables of two arrays, tabulated from l = 2. *)
Definition noise_dir_from2 : list (string * list ps_row) :=
  [ ("noise/mean_pa1xpa1_dr6_noise.dat",
      [mk_row 2 6 4 8; mk_row 3 12 2 4; mk_row 4 20 6 2; mk_row 5 30 1 1]);
    ("noise/mean_pa1xpa2_dr6_noise.dat",
      [mk_row 2 1 2 4; mk_row 3 2 4 6; mk_row 4 3 6 8; mk_row 5 4 8 10]);
    ("noise/mean_pa2xpa2_dr6_noise.dat",
      [mk_row 2 7 0 2; mk_row 3 7 2 0; mk_row 4 7 4 4; mk_row 5 7 6 8]) ].

(** A noise table of one array, tabulated from l = 0. *)
Definition noise_dir_from0 : list (string * list ps_row) :=
  [ ("noise/mean_pa1xpa1_dr6_noise.dat",
      [mk_row 0 5 1 3; mk_row 1 6 4 8; mk_row 2 12 2 4; mk_row 3 20 6 2]) ].

(** Foreground tables of two frequencies, tabulated from l = 2. *)
Definition fg_dir_from2 : list (string * list (npfloat * npfloat)) :=
  [ ("fg/fg_90x90_TT.dat",
      [(of_Z 2, of_Z 3); (of_Z 3, of_Z 6); (of_Z 4, of_Z 10);
       (of_Z 5, of_Z 15); (of_Z 6, of_Z 21)]);
    ("fg/fg_90x150_TT.dat",
      [(of_Z 2, of_Z 1); (of_Z 3, of_Z 2); (of_Z 4, of_Z 3);
       (of_Z 5, of_Z 4); (of_Z 6, of_Z 5)]);
    ("fg/fg_150x150_TT.dat",
      [(of_Z 2, of_Z 9); (of_Z 3, of_Z 8); (of_Z 4, of_Z 7);
       (of_Z 5, of_Z 6); (of_Z 6, of_Z 5)]) ].

(** A foreground table of one frequency, tabulated from l = 0. *)
Definition fg_dir_from0 : list (string * list (npfloat * npfloat)) :=
  [ ("fg/fg_90x90_TT.dat",
      [(of_Z 0, of_Z 5); (of_Z 1, of_Z 6); (of_Z 2, of_Z 12);
       (of_Z 3, of_Z 20); (of_Z 4, of_Z 30)]) ].

Definition read_ps_in (fs : list (string * list ps_row))
    (path : string) (_ : list string) : result (list ps_row) :=
  lookup_file fs path.

Definition loadtxt_in (fs : list (string * list (npfloat * npfloat)))
    (path : string) : result (list (npfloat * npfloat)) :=
  lookup_file fs path.

(** A draw primitive over a counter as random source: the realization is
    the number of the draw.  It rejects a missing spectrum, as a primitive
    that reads the shape of its first argument does. *)
Definition counting_rand_alm (ps : option tensor) (lmax : Z) (dt : dtype)
    (g : nat) : result (nat * nat) :=
  match ps with
  | None => Raise IndexError
  | Some _ => Ok (g, S g)
  end.

(** The dictionaries of two splits drawn with [counting_rand_alm] from the
    counter 0: temperature only, and three components. *)
Definition two_splits_T : gmap key nat :=
  <[KSplit 1 := 1%nat]> (<[KSplit 0 := 0%nat]> ∅).
Definition two_splits_TEB : gmap key nat :=
  <[KComp "B" 1 := 5%nat]> (<[KComp "E" 1 := 4%nat]>
  (<[KComp "T" 1 := 3%nat]> (<[KComp "B" 0 := 2%nat]>
  (<[KComp "E" 0 := 1%nat]> (<[KComp "T" 0 := 0%nat]> ∅))))).

(** Directories with one more file each, for a pair taken in the other
    order, which the functions never ask for. *)
Definition noise_dir_extra : list (string * list ps_row) :=
  ("noise/mean_pa2xpa1_dr6_noise.dat", [mk_row 2 9 9 9; mk_row 3 9 9 9])
  :: noise_dir_from2.
Definition fg_dir_extra : list (string * list (npfloat * npfloat)) :=
  ("fg/fg_150x90_TT.dat", [(of_Z 2, of_Z 7); (of_Z 3, of_Z 7)])
  :: fg_dir_from2.

(** ** The expressions of the rescaling, on one entry *)

(** [x * nsplits * 2 * np.pi / (l * (l + 1))]: the dividend, the divisor
    and the quotient. *)
Definition dividend (x : npfloat) (nsplits : Z) : npfloat :=
  np_mul (np_mul (np_mul x (of_Z nsplits)) (of_Z 2)) np_pi.
Definition divisor (l : npfloat) : npfloat :=
  np_mul l (np_add l (of_Z 1)).
Definition rescaled (x : npfloat) (nsplits : Z) (l : npfloat) : npfloat :=
  np_div (dividend x nsplits) (divisor l).

(** [(ee + bb) / 2]. *)
Definition average (ee bb : npfloat) : npfloat :=
  np_div (np_add ee bb) (of_Z 2).

(** [x * (2 * np.pi / (l * (l + 1)))], the in-place product of
    [get_foreground_matrix]. *)
Definition fg_rescaled (x l : npfloat) : npfloat :=
  np_mul x (np_div (np_mul (of_Z 2) np_pi) (divisor l)).

(** [1 <= x], as numpy compares floats. *)
Definition ge_one (x : npfloat) : bool :=
  match x with
  | Fin q => Qle_bool 1 q
  | Inf s => negb s
  | NaN => false
  end.

(** A tensor of shape [(n, m, d)]. *)
Definition shaped (n m d : nat) (a : tensor) : Prop :=
  length a = n ∧
  ∀ i (plane : matrix), a !! i = Some plane →
    length plane = m ∧
    ∀ j (f : array), plane !! j = Some f → length f = d.

(** ** What the double loops have stored, as loop invariants *)

(** The noise loop has stored the rescaled spectra of the pair [(i, j)]:
    at each position of the truncated table of the pair, the temperature
    and the polarization entries. *)
Definition noise_stored
    (read_ps : string → list string → result (list ps_row))
    (noise_dir survey : string) (arrays : list string) (lmax nsplits : Z)
    (i j : nat) (st : option array * tensor * tensor) : Prop :=
  ∀ ar1 ar2, arrays !! i = Some ar1 → arrays !! j = Some ar2 →
  ∃ tbl, read_ps (noise_file noise_dir ar1 ar2 survey) spectra = Ok tbl ∧
    ∀ k r, slice_to lmax tbl !! k = Some r →
      entry st.1.2 i j k
        = Some (rescaled (row_ps r "TT") nsplits (row_l r)) ∧
      entry st.2 i j k
        = Some (rescaled (average (row_ps r "EE") (row_ps r "BB"))
                         nsplits (row_l r)).

Definition noise_shaped (arrays : list string) (lmax : Z)
    (st : option array * tensor * tensor) : Prop :=
  shaped (length arrays) (length arrays) (Z.to_nat lmax) st.1.2 ∧
  shaped (length arrays) (length arrays) (Z.to_nat lmax) st.2.

(** The foreground loop has stored, from index 2 on, the rescaled lines of
    the table of the pair [(i, j)]: the entry of index [k] comes from the
    line of position [k - 2]. *)
Definition fg_stored
    (loadtxt : string → result (list (npfloat * npfloat)))
    (fg_dir : string) (all_freqs : list string) (lmax : Z)
    (i j : nat) (st : option array * tensor) : Prop :=
  ∀ f1 f2, all_freqs !! i = Some f1 → all_freqs !! j = Some f2 →
  ∃ rows, loadtxt (fg_file fg_dir f1 f2) = Ok rows ∧
    ∀ k, (2 ≤ k < Z.to_nat lmax)%nat →
      ∃ lk fk, rows !! (k - 2)%nat = Some (lk, fk) ∧
               entry st.2 i j k = Some (fg_rescaled fk lk).

(** The foreground tensor has its shape and zeros at the indices 0 and 1;
    the local [l], once bound, is the whole first column of a table. *)
Definition fg_inv
    (loadtxt : string → result (list (npfloat * npfloat)))
    (all_freqs : list string) (lmax : Z)
    (st : option array * tensor) : Prop :=
  shaped (length all_freqs) (length all_freqs) (Z.to_nat lmax) st.2 ∧
  (∀ i j k, (i < length all_freqs)%nat → (j < length all_freqs)%nat →
     (k < 2)%nat → (k < Z.to_nat lmax)%nat →
     entry st.2 i j k = Some (Fin 0)) ∧
  (∀ l, st.1 = Some l →
     ∃ path rows, loadtxt path = Ok rows ∧ l = rows.*1 ∧
                  (2 ≤ length rows)%nat).

(** A value of the dictionary comes from a draw on the spectrum [ps], at
    some state of the random source. *)
Definition drawn_from {Rng Alm : Type}
    (rand_alm : option tensor → Z → dtype → Rng → result (Alm * Rng))
    (lmax : Z) (dt : dtype) (ps : option tensor) (alm : Alm) : Prop :=
  ∃ g1 g2, rand_alm ps lmax dt g1 = Ok (alm, g2).

(** ** Conditions on the tables, and the draws as a sequence *)

(** A noise table can fill a fibre of [lmax] items: it has at least [lmax]
    lines, or exactly one line (which numpy repeats). *)
Definition noise_table_fits (lmax : Z) (tbl : list ps_row) : Prop :=
  (Z.to_nat lmax ≤ length tbl)%nat ∨ length tbl = 1%nat.

(** A foreground table can fill the slice [2:lmax] with its lines cut by
    [[:lmax-2]]: it has two lines or more (so that it is unpacked into two
    columns) and, from [lmax = 2] on, at least [lmax - 2] lines; below, the
    negative bound [[:lmax-2]] leaves at most one line. *)
Definition fg_table_fits (lmax : Z) (rows : list (npfloat * npfloat)) : Prop :=
  (2 ≤ length rows)%nat ∧
  (2 ≤ lmax → lmax - 2 ≤ Z.of_nat (length rows)) ∧
  (lmax = 1 → length rows = 2%nat) ∧
  (lmax = 0 → (length rows ≤ 3)%nat).

(** The draws of a list of spectra, one after the other, each from the
    state of the random source the previous one left. *)
Fixpoint draw_seq {Rng Alm : Type}
    (rand_alm : option tensor → Z → dtype → Rng → result (Alm * Rng))
    (lmax : Z) (dt : dtype) (pss : list (option tensor)) (g : Rng)
  : result (list Alm * Rng) :=
  match pss with
  | [] => Ok ([], g)
  | ps :: pss' =>
      '(alm, g1) ← rand_alm ps lmax dt g;
      '(alms, g2) ← draw_seq rand_alm lmax dt pss' g1;
      Ok (alm :: alms, g2)
  end.

(** Storing values under keys, in order: [nlms[k] = alm] for each pair. *)
Definition store {Alm : Type} (nlms : gmap key Alm)
    (kas : list (key * Alm)) : gmap key Alm :=
  foldl (λ m ka, <[ka.1 := ka.2]> m) nlms kas.

(** The keys and the spectra of the three-component loop, in the order of
    its draws. *)
Definition comp_keys (n_splits : Z) : list key :=
  k ← range n_splits; [KComp "T" k; KComp "E" k; KComp "B" k].
Definition comp_spectra (nl_array_t : tensor) (nl_array_pol : option tensor)
    (n_splits : Z) : list (option tensor) :=
  _ ← range n_splits; [Some nl_array_t; nl_array_pol; nl_array_pol].

(** * Properties *)

(** ** The error monad and the loops *)

Lemma bind_Ok {A B} (m : result A) (f : A → result B) (b : B) :
  m ≫= f = Ok b ↔ ∃ a, m = Ok a ∧ f a = Ok b.
Proof.
  destruct m as [a|e]; simpl; split.
  - intros H. by exists a.
  - by intros (a' & [= <-] & H).
  - discriminate.
  - by intros (a' & [=] & _).
Qed.

Lemma bind_Raise {A B} (m : result A) (f : A → result B) :
  is_Raise m → is_Raise (m ≫= f).
Proof. intros [e ->]. by exists e. Qed.

Lemma result_cases {A} (r : result A) : is_Ok r ∨ is_Raise r.
Proof. destruct r as [a|e]; [left; by exists a | right; by exists e]. Qed.

(** The invariant rule of a [for] loop: [P i] holds before the item of
    position [i] is processed. *)
Lemma foldM_inv {S A} (body : S → A → result S) (P : nat → S → Prop)
    (xs : list A) (s0 s' : S) :
  P 0%nat s0 →
  (∀ i x s s1, xs !! i = Some x → P i s → body s x = Ok s1 → P (Datatypes.S i) s1) →
  foldM body s0 xs = Ok s' →
  P (length xs) s'.
Proof.
  revert P s0. induction xs as [|x xs IH]; intros P s0 H0 Hstep Hrun.
  - simpl in Hrun. by injection Hrun as <-.
  - simpl in Hrun. apply bind_Ok in Hrun as (s1 & Hx & Hrest).
    apply (IH (λ i, P (Datatypes.S i)) s1); [| |done].
    + by apply (Hstep 0%nat x s0).
    + intros i y s s2 Hy. by apply (Hstep (Datatypes.S i) y).
Qed.

(** A loop whose body never raises runs to its end. *)
Lemma foldM_total {S A} (body : S → A → result S) (xs : list A) (s0 : S) :
  (∀ s x, x ∈ xs → is_Ok (body s x)) → is_Ok (foldM body s0 xs).
Proof.
  revert s0. induction xs as [|x xs IH]; intros s0 Hbody.
  - by exists s0.
  - simpl. destruct (Hbody s0 x) as [s1 ->]; [left|]. simpl.
    apply IH. intros s y Hy. apply Hbody. by right.
Qed.

Lemma lookup_enumerate_from {A} (xs : list A) (n i : nat) :
  enumerate_from n xs !! i = (λ x, ((n + i)%nat, x)) <$> xs !! i.
Proof.
  revert n i. induction xs as [|x xs IH]; intros n [|i]; simpl; try done.
  - by rewrite Nat.add_0_r.
  - rewrite IH. by replace (Datatypes.S n + i)%nat with (n + Datatypes.S i)%nat by lia.
Qed.

Lemma lookup_enumerate {A} (xs : list A) (i j : nat) (x : A) :
  enumerate xs !! i = Some (j, x) ↔ j = i ∧ xs !! i = Some x.
Proof.
  unfold enumerate. rewrite lookup_enumerate_from. simpl.
  destruct (xs !! i) as [y|]; simpl; split.
  - by intros [= <- <-].
  - by intros [-> [= ->]].
  - done.
  - by intros [_ [=]].
Qed.

Lemma length_enumerate {A} (xs : list A) : length (enumerate xs) = length xs.
Proof.
  unfold enumerate. generalize 0%nat.
  induction xs as [|x xs IH]; intros n; simpl; [done|]. by rewrite IH.
Qed.

Lemma lookup_range (n : Z) (i k : nat) :
  range n !! i = Some k ↔ k = i ∧ (Z.of_nat i < n).
Proof. unfold range. rewrite lookup_seq. lia. Qed.

Lemma length_range (n : Z) : length (range n) = Z.to_nat n.
Proof. unfold range. by rewrite length_seq. Qed.

(** The double loop over the pairs [(c1, c2)] that skips [c1 > c2]: an
    invariant [I] of the state, and a property [Q c1 c2] that the body
    establishes for its pair and keeps for the others. *)
Section PairLoop.
Context {S A : Type}.
Variable body : nat → A → S → nat * A → result S.
Variable xs : list A.
Variable I : S → Prop.
Variable Q : nat → nat → S → Prop.

Hypothesis body_skip : ∀ c1 x1 c2 x2 s,
  (c2 < c1)%nat → body c1 x1 s (c2, x2) = Ok s.
Hypothesis body_run : ∀ c1 x1 c2 x2 s s',
  xs !! c1 = Some x1 → xs !! c2 = Some x2 → (c1 ≤ c2)%nat → I s →
  body c1 x1 s (c2, x2) = Ok s' →
  I s' ∧ Q c1 c2 s' ∧ ∀ i j, (i, j) ≠ (c1, c2) → Q i j s → Q i j s'.

Lemma pair_loop_inner c1 x1 s0 s' :
  xs !! c1 = Some x1 →
  I s0 →
  (∀ i j, (i < c1)%nat → (i ≤ j < length xs)%nat → Q i j s0) →
  foldM (body c1 x1) s0 (enumerate xs) = Ok s' →
  I s' ∧ ∀ i j, (i < Datatypes.S c1)%nat → (i ≤ j < length xs)%nat → Q i j s'.
Proof.
  intros Hc1 HI HQ Hrun.
  pose (P := λ (c2 : nat) (s : S),
    I s ∧ ∀ i j, (i < c1 ∨ (i = c1 ∧ j < c2))%nat →
                 (i ≤ j < length xs)%nat → Q i j s).
  assert (P (length (enumerate xs)) s') as [HI' HQ'].
  { apply (foldM_inv (body c1 x1) P (enumerate xs) s0); [| |done].
    - split; [done|]. intros i j [?|[_ ?]] ?; [by apply HQ | lia].
    - intros c2 [c2' x2] s s1 Hx [HIs HQs] Hbody.
      apply lookup_enumerate in Hx as [-> Hx2].
      destruct (decide (c2 < c1)%nat) as [Hlt|Hge].
      + rewrite body_skip in Hbody by done. injection Hbody as <-.
        split; [done|]. intros i j Hij ?. apply HQs; lia.
      + destruct (body_run c1 x1 c2 x2 s s1) as (HI1 & Hnew & Hkeep);
          [done..|lia|done|done|].
        split; [done|]. intros i j Hij Hr.
        destruct (decide ((i, j) = (c1, c2))) as [[= -> ->]|Hne]; [done|].
        apply Hkeep; [done|]. apply HQs; [|done].
        destruct Hij as [?|[-> ?]]; [by left|]. right. split; [done|].
        assert (j ≠ c2) by congruence. lia. }
  split; [done|]. intros i j Hi Hr. apply HQ'; [|done].
  rewrite length_enumerate. lia.
Qed.

Lemma pair_loop_inv s0 s' :
  I s0 →
  foldM (λ st '(c1, x1), foldM (body c1 x1) st (enumerate xs))
        s0 (enumerate xs) = Ok s' →
  I s' ∧ ∀ i j, (i ≤ j < length xs)%nat → Q i j s'.
Proof.
  intros HI Hrun.
  pose (P := λ (c1 : nat) (s : S),
    I s ∧ ∀ i j, (i < c1)%nat → (i ≤ j < length xs)%nat → Q i j s).
  assert (P (length (enumerate xs)) s') as [HI' HQ'].
  { apply (foldM_inv _ P (enumerate xs) s0) in Hrun; [done| |].
    - split; [done|]. intros; lia.
    - intros c1 [c1' x1] s s1 Hx [HIs HQs] Hbody.
      apply lookup_enumerate in Hx as [-> Hx1].
      by apply (pair_loop_inner c1 x1 s s1). }
  split; [done|]. intros i j Hr. apply HQ'; [|done].
  rewrite length_enumerate. lia.
Qed.
End PairLoop.

(** ** Shapes, fibres and entries *)

Lemma fibre_Some (a : tensor) (i j : nat) (f : array) :
  fibre a i j = Some f ↔ ∃ plane : matrix, a !! i = Some plane ∧ plane !! j = Some f.
Proof.
  unfold fibre. destruct (a !! i) as [plane|]; simpl; split.
  - intros Hj. by exists plane.
  - by intros (plane' & [= <-] & Hj).
  - done.
  - by intros (plane' & [=] & _).
Qed.

Lemma shaped_fibre n m d (a : tensor) i j (f : array) :
  shaped n m d a → fibre a i j = Some f →
  (i < n)%nat ∧ (j < m)%nat ∧ length f = d.
Proof.
  intros [Hn Hp] (plane & Hi & Hj)%fibre_Some.
  destruct (Hp i plane Hi) as [Hm Hf].
  apply lookup_lt_Some in Hi as ?. apply lookup_lt_Some in Hj as ?.
  split; [lia|]. split; [lia|]. by apply (Hf j).
Qed.

Lemma shaped_fibre_is_Some n m d (a : tensor) i j :
  shaped n m d a → (i < n)%nat → (j < m)%nat → is_Some (fibre a i j).
Proof.
  intros [Hn Hp] Hi Hj.
  destruct (lookup_lt_is_Some_2 a i) as [plane Hplane]; [lia|].
  destruct (Hp i plane Hplane) as [Hm _].
  destruct (lookup_lt_is_Some_2 plane j) as [f Hf]; [lia|].
  exists f. apply fibre_Some. eauto.
Qed.

Lemma entry_None_l n m d (a : tensor) i j k :
  shaped n m d a → ¬ (i < n ∧ j < m)%nat → entry a i j k = None.
Proof.
  intros Hs Hij. unfold entry.
  destruct (fibre a i j) as [f|] eqn:Hf; [|done].
  apply (shaped_fibre n m d) in Hf as (? & ? & _); [lia|done].
Qed.

Lemma np_zeros_spec n m d (a : tensor) :
  np_zeros n m d = Ok a →
  0 ≤ d ∧ shaped n m (Z.to_nat d) a ∧
  ∀ i j, (i < n)%nat → (j < m)%nat →
    fibre a i j = Some (replicate (Z.to_nat d) (Fin 0)).
Proof.
  unfold np_zeros. case_decide; [done|]. intros [= <-].
  split; [lia|]. split.
  - split; [by rewrite length_replicate|].
    intros i plane [-> _]%lookup_replicate.
    split; [by rewrite length_replicate|].
    intros j f [-> _]%lookup_replicate. by rewrite length_replicate.
  - intros i j Hi Hj. apply fibre_Some. eexists.
    split; by apply lookup_replicate_2.
Qed.

Lemma broadcast_to_length len (v v' : array) :
  broadcast_to len v = Ok v' → length v' = len.
Proof.
  unfold broadcast_to. repeat case_decide; intros [= <-]; [done|].
  by rewrite length_replicate.
Qed.

(** Within the items of the value, the broadcast slice reads as the
    value itself. *)
Lemma broadcast_to_lookup len (v v' : array) k :
  broadcast_to len v = Ok v' → (length v ≤ len)%nat → (k < length v)%nat →
  v' !! k = v !! k.
Proof.
  unfold broadcast_to. repeat case_decide; intros [= <-] Hle Hk; [done|].
  assert (k = 0)%nat as -> by lia.
  rewrite lookup_replicate_2 by lia.
  symmetry. apply list_lookup_lookup_total_lt. lia.
Qed.

Lemma setitem_spec n m d (a a' : tensor) c1 c2 start stop (v : array) :
  shaped n m d a →
  setitem a c1 c2 start stop v = Ok a' →
  ∃ old v' : array,
    fibre a c1 c2 = Some old ∧
    broadcast_to (stop `min` d - start `min` d) v = Ok v' ∧
    fibre a' c1 c2 =
      Some (take (start `min` d) old ++ v' ++
            drop (start `min` d + (stop `min` d - start `min` d)) old) ∧
    (∀ i j, (i, j) ≠ (c1, c2) → fibre a' i j = fibre a i j) ∧
    shaped n m d a'.
Proof.
  intros Hs. unfold setitem.
  destruct (fibre a c1 c2) as [old|] eqn:Hold; [|done].
  destruct (shaped_fibre _ _ _ _ _ _ _ Hs Hold) as (Hc1 & Hc2 & Hlen).
  rewrite Hlen. intros (v' & Hv' & [= <-])%bind_Ok.
  destruct (proj1 (fibre_Some _ _ _ _) Hold) as (plane & Hplane & Hf).
  exists old, v'. split; [done|]. split; [done|].
  set (new := take _ old ++ v' ++ drop _ old).
  assert (length new = d) as Hnew.
  { unfold new. rewrite !length_app, length_take, length_drop.
    apply broadcast_to_length in Hv'. lia. }
  split; [|split].
  - apply fibre_Some. exists (<[c2 := new]> plane). split.
    + by rewrite list_lookup_alter_eq, Hplane.
    + apply list_lookup_insert_eq. by apply lookup_lt_Some in Hf.
  - intros i j Hne. unfold fibre.
    destruct (decide (i = c1)) as [->|Hi].
    + rewrite list_lookup_alter_eq, Hplane. simpl.
      apply list_lookup_insert_ne. congruence.
    + by rewrite list_lookup_alter_ne.
  - destruct Hs as [Hn Hp]. split; [by rewrite length_alter|].
    intros i plane' Hi.
    destruct (decide (i = c1)) as [->|Hne].
    + rewrite list_lookup_alter_eq, Hplane in Hi. injection Hi as <-.
      destruct (Hp c1 plane Hplane) as [Hm Hfs].
      split; [by rewrite length_insert|].
      intros j f [[-> [-> _]]|[_ Hj]]%list_lookup_insert_Some; [done|].
      by apply (Hfs j).
    + rewrite list_lookup_alter_ne in Hi by done. by apply (Hp i).
Qed.

Lemma entry_Some_total n m d (a : tensor) i j k (f : array) :
  shaped n m d a → fibre a i j = Some f → (k < d)%nat →
  entry a i j k = Some (f !!! k).
Proof.
  intros Hs Hf Hk. unfold entry. rewrite Hf. simpl.
  apply list_lookup_lookup_total_lt.
  apply (shaped_fibre n m d) in Hf as (_ & _ & ->); done.
Qed.

Lemma entry_None_r n m d (a : tensor) i j k :
  shaped n m d a → (d ≤ k)%nat → entry a i j k = None.
Proof.
  intros Hs Hk. unfold entry.
  destruct (fibre a i j) as [f|] eqn:Hf; [|done]. simpl.
  apply lookup_ge_None.
  apply (shaped_fibre n m d) in Hf as (_ & _ & ->); done.
Qed.

(** ** The symmetrizer, one multipole at a time *)

Lemma shaped_setslice n m d (a : tensor) k (mat : matrix) :
  shaped n m d a → shaped n m d (setslice a k mat).
Proof.
  intros [Hn Hp]. split; [unfold setslice; by rewrite length_imap|].
  intros i plane' Hi. unfold setslice in Hi.
  rewrite list_lookup_imap in Hi.
  destruct (a !! i) as [plane|] eqn:Hplane; [|done].
  injection Hi as <-. destruct (Hp i plane Hplane) as [Hm Hf].
  split; [by rewrite length_imap|].
  intros j f' Hj. rewrite list_lookup_imap in Hj.
  destruct (plane !! j) as [f|] eqn:Hfj; [|done].
  injection Hj as <-. rewrite length_insert. by apply (Hf j).
Qed.

Lemma fill_sym_mat_getslice n d (a : tensor) i j k
    (fij fji : array) :
  shaped n n d a →
  fibre a i j = Some fij → fibre a j i = Some fji →
  (fill_sym_mat (getslice a k) !!! i) !!! j =
    if decide (i ≤ j)%nat then fij !!! k else fji !!! k.
Proof.
  intros Hs (pi & Hpi & Hfij)%fibre_Some (pj & Hpj & Hfji)%fibre_Some.
  assert (getslice a k !! i = Some ((λ f : array, f !!! k) <$> pi)) as Hgi.
  { unfold getslice. by rewrite list_lookup_fmap, Hpi. }
  assert (getslice a k !! j = Some ((λ f : array, f !!! k) <$> pj)) as Hgj.
  { unfold getslice. by rewrite list_lookup_fmap, Hpj. }
  unfold fill_sym_mat.
  erewrite (list_lookup_total_correct (imap _ _) i);
    [|by rewrite list_lookup_imap, Hgi].
  erewrite (list_lookup_total_correct (imap _ _) j);
    [|by rewrite list_lookup_imap, list_lookup_fmap, Hfij].
  case_decide; [done|].
  rewrite (list_lookup_total_correct _ j _ Hgj).
  apply list_lookup_total_correct. by rewrite list_lookup_fmap, Hfji.
Qed.

(** One step of the loop: the slice [k] becomes symmetric from its upper
    triangle, the other slices are untouched. *)
Lemma entry_symmetrize_step n d (a : tensor) i j k k' :
  shaped n n d a → (i < n)%nat → (j < n)%nat → (k < d)%nat → (k' < d)%nat →
  entry (setslice a k (fill_sym_mat (getslice a k))) i j k' =
    if decide (k' = k)
    then if decide (i ≤ j)%nat then entry a i j k else entry a j i k
    else entry a i j k'.
Proof.
  intros Hs Hi Hj Hk Hk'.
  destruct (shaped_fibre_is_Some n n d a i j Hs Hi Hj) as [fij Hfij].
  destruct (shaped_fibre_is_Some n n d a j i Hs Hj Hi) as [fji Hfji].
  rewrite !(entry_Some_total n n d a _ _ _ _ Hs Hfij) by done.
  rewrite (entry_Some_total n n d a _ _ _ _ Hs Hfji) by done.
  destruct (proj1 (fibre_Some _ _ _ _) Hfij) as (pi & Hpi & Hpij).
  unfold entry, fibre, setslice.
  rewrite list_lookup_imap, Hpi. simpl.
  rewrite list_lookup_imap, Hpij. simpl.
  assert (length fij = d) as Hlen
    by by apply (shaped_fibre n n d) in Hfij as (_ & _ & ?).
  case_decide as Hkk.
  - subst k'. rewrite list_lookup_insert_eq by lia.
    rewrite (fill_sym_mat_getslice n d a i j k fij fji) by done.
    by case_decide.
  - rewrite list_lookup_insert_ne by done.
    apply list_lookup_lookup_total_lt. lia.
Qed.

Lemma symmetrize_spec n (a a' : tensor) (lmax : Z) :
  shaped n n (Z.to_nat lmax) a →
  symmetrize a lmax = Ok a' →
  shaped n n (Z.to_nat lmax) a' ∧
  ∀ i j k, entry a' i j k =
    if decide (i ≤ j)%nat then entry a i j k else entry a j i k.
Proof.
  intros Hs Hrun. set (d := Z.to_nat lmax) in *.
  pose (P := λ (m : nat) (b : tensor),
    shaped n n d b ∧
    ∀ i j k, (i < n)%nat → (j < n)%nat → (k < d)%nat →
      entry b i j k =
        if decide (k < m)%nat
        then if decide (i ≤ j)%nat then entry a i j k else entry a j i k
        else entry a i j k).
  assert (P (length (range lmax)) a') as [Hs' He].
  { apply (foldM_inv _ P (range lmax) a) in Hrun; [done| |].
    - split; [done|]. intros i j k _ _ _. by case_decide; [lia|].
    - intros m k b b1 [-> Hm]%lookup_range [Hb Hent] [= <-].
      split; [by apply shaped_setslice|].
      assert (m < d)%nat by (unfold d; lia).
      intros i j k Hi Hj Hk.
      rewrite (entry_symmetrize_step n d) by (done || lia).
      rewrite !Hent by (done || lia).
      repeat case_decide; subst; done || lia. }
  rewrite length_range in He. fold d in He.
  split; [done|]. intros i j k.
  destruct (decide (i < n ∧ j < n)%nat) as [[Hi Hj]|Hij].
  - destruct (decide (k < d)%nat) as [Hk|Hk].
    + rewrite He by done. by case_decide; [|lia].
    + rewrite !(entry_None_r n n d) by (done || lia). by case_decide.
  - rewrite (entry_None_l n n d a') by done.
    rewrite !(entry_None_l n n d a) by (done || lia). by case_decide.
Qed.

Lemma symmetrize_symmetric n (a a' : tensor) (lmax : Z) :
  shaped n n (Z.to_nat lmax) a →
  symmetrize a lmax = Ok a' →
  ∀ i j k, entry a' i j k = entry a' j i k.
Proof.
  intros Hs Hrun i j k.
  destruct (symmetrize_spec n a a' lmax Hs Hrun) as [_ He].
  rewrite !He. repeat case_decide; try done; try lia.
  by assert (i = j) as -> by lia.
Qed.

(** The symmetrizer never raises. *)
Lemma symmetrize_total (a : tensor) (lmax : Z) : is_Ok (symmetrize a lmax).
Proof. apply foldM_total. intros b k _. by eexists. Qed.

(** ** Slices and element-wise expressions *)

Lemma slice_to_fmap {A B} (f : A → B) (stop : Z) (xs : list A) :
  slice_to stop (f <$> xs) = f <$> slice_to stop xs.
Proof.
  unfold slice_to. rewrite length_fmap. case_decide; by rewrite fmap_take.
Qed.

Lemma slice_to_nonneg {A} (stop : Z) (xs : list A) :
  0 ≤ stop → slice_to stop xs = take (Z.to_nat stop) xs.
Proof. intros. unfold slice_to. by case_decide; [|lia]. Qed.

Lemma length_slice_to_le {A} (stop : Z) (xs : list A) :
  0 ≤ stop → (length (slice_to stop xs) ≤ Z.to_nat stop)%nat.
Proof. intros. rewrite slice_to_nonneg, length_take by done. lia. Qed.

(** The right-hand side of the two assignments of the noise loop, read at
    one position of the truncated table. *)
Lemma noise_rhs_lookup (rows : list ps_row) (x : ps_row → npfloat)
    (nsplits : Z) k r :
  rows !! k = Some r →
  div_a (mul_s (mul_s (mul_s (x <$> rows) (of_Z nsplits)) (of_Z 2)) np_pi)
        (mul_a (row_l <$> rows) (add_s (row_l <$> rows) (of_Z 1))) !! k
  = Some (rescaled (x r) nsplits (row_l r)).
Proof.
  intros Hr. unfold div_a, mul_a, mul_s, add_s.
  rewrite !lookup_zip_with, !list_lookup_fmap, Hr. done.
Qed.

Lemma noise_rhs_length (rows : list ps_row) (x : ps_row → npfloat)
    (nsplits : Z) :
  length (div_a (mul_s (mul_s (mul_s (x <$> rows) (of_Z nsplits)) (of_Z 2)) np_pi)
            (mul_a (row_l <$> rows) (add_s (row_l <$> rows) (of_Z 1))))
  = length rows.
Proof.
  unfold div_a, mul_a, mul_s, add_s.
  rewrite !length_zip_with, !length_fmap. lia.
Qed.

Lemma average_rows (rows : list ps_row) :
  div_s (add_a ((λ r, row_ps r "EE") <$> rows) ((λ r, row_ps r "BB") <$> rows))
        (of_Z 2)
  = (λ r, average (row_ps r "EE") (row_ps r "BB")) <$> rows.
Proof.
  unfold div_s, add_a, average. apply list_eq. intros i.
  rewrite !list_lookup_fmap, lookup_zip_with, !list_lookup_fmap.
  by destruct (rows !! i).
Qed.

(** The whole-fibre assignment [a[c1, c2, :] = v]. *)
Lemma setitem_full n d (a a' : tensor) c1 c2 (v : array) k :
  shaped n n d a → setitem a c1 c2 0 d v = Ok a' →
  (length v ≤ d)%nat → (k < length v)%nat →
  entry a' c1 c2 k = v !! k.
Proof.
  intros Hs Hset Hle Hk.
  destruct (setitem_spec n n d a a' c1 c2 0 d v Hs Hset)
    as (old & v' & Hold & Hv' & Hnew & _ & _).
  unfold entry. rewrite Hnew. simpl.
  replace (0 `min` d)%nat with 0%nat in * by lia.
  replace (d `min` d - 0)%nat with d in * by lia.
  simpl. rewrite lookup_app_l
    by (apply broadcast_to_length in Hv'; lia).
  by apply (broadcast_to_lookup d).
Qed.

(** ** get_noise_matrix_spin0and2 *)

Section Noise.
Variable read_ps : string → list string → result (list ps_row).
Variables (noise_dir survey : string) (arrays : list string).
Variables (lmax nsplits : Z).

Local Abbreviation n := (length arrays).
Local Abbreviation d := (Z.to_nat lmax).

Local Abbreviation noise_stored :=
  (noise_stored read_ps noise_dir survey arrays lmax nsplits).
Local Abbreviation noise_shaped := (noise_shaped arrays lmax).

Lemma noise_pair_skip c1 ar1 c2 ar2 st :
  (c2 < c1)%nat →
  noise_pair read_ps noise_dir survey lmax nsplits c1 ar1 st (c2, ar2) = Ok st.
Proof.
  intros. unfold noise_pair. destruct st as [[l0 t] p].
  by case_decide; [|lia].
Qed.

Lemma noise_pair_run c1 ar1 c2 ar2 st st' :
  0 ≤ lmax →
  arrays !! c1 = Some ar1 → arrays !! c2 = Some ar2 → (c1 ≤ c2)%nat →
  noise_shaped st →
  noise_pair read_ps noise_dir survey lmax nsplits c1 ar1 st (c2, ar2) = Ok st' →
  noise_shaped st' ∧ noise_stored c1 c2 st' ∧
  ∀ i j, (i, j) ≠ (c1, c2) → noise_stored i j st → noise_stored i j st'.
Proof.
  intros Hlmax Har1 Har2 Hle [Ht Hp]. unfold noise_pair.
  destruct st as [[l0 t] p]. simpl in Ht, Hp.
  case_decide; [lia|].
  intros (tbl & Htbl & (t' & Hset_t & (p' & Hset_p & [= <-])%bind_Ok)%bind_Ok)%bind_Ok.
  unfold ps_l, ps_nl in Hset_t, Hset_p.
  repeat rewrite slice_to_fmap in Hset_t.
  repeat rewrite slice_to_fmap in Hset_p.
  rewrite average_rows in Hset_p.
      destruct (setitem_spec n n d _ _ _ _ _ _ _ Ht Hset_t)
    as (? & ? & _ & _ & _ & Hkeep_t & Ht').
  destruct (setitem_spec n n d _ _ _ _ _ _ _ Hp Hset_p)
    as (? & ? & _ & _ & _ & Hkeep_p & Hp').
  assert (length (slice_to lmax tbl) ≤ d)%nat as Hlen
    by by apply length_slice_to_le.
  split; [done|]. split.
  - intros a1 a2 Ha1 Ha2. simplify_eq. exists tbl. split; [done|].
    intros k r Hr. simpl. apply lookup_lt_Some in Hr as Hk.
    rewrite (setitem_full n d _ _ _ _ _ _ Ht Hset_t),
            (setitem_full n d _ _ _ _ _ _ Hp Hset_p)
      by (rewrite noise_rhs_length; lia).
    split; [by apply noise_rhs_lookup|].
    by rewrite (noise_rhs_lookup _
      (λ r, average (row_ps r "EE") (row_ps r "BB")) _ _ r).
  - intros i j Hne Hst a1 a2 Ha1 Ha2.
    destruct (Hst a1 a2 Ha1 Ha2) as (tbl' & Htbl' & He).
    exists tbl'. split; [done|]. intros k r Hr. simpl in *.
    unfold entry in *. rewrite Hkeep_t, Hkeep_p by done. by apply He.
Qed.

(** The double loop, then the two symmetrizations. *)
Lemma get_noise_matrix_run (l : array) (T P : tensor) :
  get_noise_matrix_spin0and2 read_ps noise_dir survey arrays lmax nsplits
    = Ok (l, T, P) →
  ∃ st : option array * tensor * tensor,
    0 ≤ lmax ∧ noise_shaped st ∧
    (∀ i j, (i ≤ j < n)%nat → noise_stored i j st) ∧
    symmetrize st.1.2 lmax = Ok T ∧ symmetrize st.2 lmax = Ok P.
Proof.
  unfold get_noise_matrix_spin0and2.
  intros (t0 & Ht0 & (p0 & Hp0 & (st & Hloop & Hrest)%bind_Ok)%bind_Ok)%bind_Ok.
  destruct st as [[l1 t1] p1].
  apply bind_Ok in Hrest as (T' & HT & (P' & HP & Hret)%bind_Ok).
  destruct l1 as [l1|]; [|done]. injection Hret as <- <- <-.
  apply np_zeros_spec in Ht0 as (Hlmax & Hst0 & _).
  apply np_zeros_spec in Hp0 as (_ & Hsp0 & _).
  exists (Some l1, t1, p1). split; [done|].
  destruct (pair_loop_inv
    (noise_pair read_ps noise_dir survey lmax nsplits) arrays
    noise_shaped noise_stored) with (s0 := (None : option array, t0, p0))
    (s' := (Some l1, t1, p1)) as [HI HQ]; try done.
  - intros. by apply noise_pair_skip.
  - intros. by apply (noise_pair_run c1 x1 c2 x2 s).
Qed.

(** The entries of the upper triangle, after symmetrization. *)
Lemma noise_matrix_upper (l : array) (T P : tensor) i j ar1 ar2 :
  get_noise_matrix_spin0and2 read_ps noise_dir survey arrays lmax nsplits
    = Ok (l, T, P) →
  (i ≤ j)%nat → arrays !! i = Some ar1 → arrays !! j = Some ar2 →
  ∃ tbl, read_ps (noise_file noise_dir ar1 ar2 survey) spectra = Ok tbl ∧
    ∀ k r, slice_to lmax tbl !! k = Some r →
      entry T i j k = Some (rescaled (row_ps r "TT") nsplits (row_l r)) ∧
      entry P i j k
        = Some (rescaled (average (row_ps r "EE") (row_ps r "BB"))
                         nsplits (row_l r)).
Proof.
  intros (st & Hlmax & [Ht Hp] & Hst & HT & HP)%get_noise_matrix_run
    Hij Har1 Har2.
  assert (i ≤ j < n)%nat as Hrange
    by (apply lookup_lt_Some in Har2; lia).
  destruct (Hst i j Hrange ar1 ar2 Har1 Har2) as (tbl & Htbl & He).
  exists tbl. split; [done|]. intros k r Hr.
  destruct (symmetrize_spec n _ _ lmax Ht HT) as [_ ->].
  destruct (symmetrize_spec n _ _ lmax Hp HP) as [_ ->].
  case_decide; [|lia]. by apply He.
Qed.

Lemma noise_matrix_symmetric (l : array) (T P : tensor) :
  get_noise_matrix_spin0and2 read_ps noise_dir survey arrays lmax nsplits
    = Ok (l, T, P) →
  ∀ i j k, entry T i j k = entry T j i k ∧ entry P i j k = entry P j i k.
Proof.
  intros (st & Hlmax & [Ht Hp] & _ & HT & HP)%get_noise_matrix_run i j k.
  split; [apply (symmetrize_symmetric n _ _ lmax Ht HT)
         |apply (symmetrize_symmetric n _ _ lmax Hp HP)].
Qed.
End Noise.

(** ** get_foreground_matrix *)

Lemma unpack_Ok (rows : list (npfloat * npfloat)) (l fl : array) :
  unpack rows = Ok (l, fl) →
  l = rows.*1 ∧ fl = rows.*2 ∧ (2 ≤ length rows)%nat.
Proof.
  destruct rows as [|r1 [|r2 rows]]; simpl; try done.
  intros [= <- <-]. repeat split. lia.
Qed.

(** The product [fl_all *= 2 * np.pi / (l * (l + 1))], read at one line. *)
Lemma fg_rhs_lookup (rows : list (npfloat * npfloat)) k lk fk :
  rows !! k = Some (lk, fk) →
  mul_a rows.*2
        (s_div (np_mul (of_Z 2) np_pi)
               (mul_a rows.*1 (add_s rows.*1 (of_Z 1)))) !! k
  = Some (fg_rescaled fk lk).
Proof.
  intros Hr. unfold mul_a, s_div, add_s.
  rewrite lookup_zip_with, !list_lookup_fmap, lookup_zip_with,
    !list_lookup_fmap, Hr. done.
Qed.

Lemma fg_rhs_length (rows : list (npfloat * npfloat)) :
  length (mul_a rows.*2
            (s_div (np_mul (of_Z 2) np_pi)
                   (mul_a rows.*1 (add_s rows.*1 (of_Z 1)))))
  = length rows.
Proof.
  unfold mul_a, s_div, add_s.
  rewrite length_zip_with, !length_fmap, length_zip_with, !length_fmap. lia.
Qed.

(** The assignment [a[c1, c2, 2:d] = v]: the indices 0 and 1 are kept, and
    a value of [d - 2] items lands from index 2 on. *)
Lemma setitem_from2 n d (a a' : tensor) c1 c2 (v : array) :
  shaped n n d a → setitem a c1 c2 2 d v = Ok a' →
  (∀ k, (k < 2)%nat → entry a' c1 c2 k = entry a c1 c2 k) ∧
  (∀ k, (2 ≤ k < d)%nat → length v = (d - 2)%nat →
        entry a' c1 c2 k = v !! (k - 2)%nat).
Proof.
  intros Hs Hset.
  destruct (setitem_spec n n d a a' c1 c2 2 d v Hs Hset)
    as (old & v' & Hold & Hv' & Hnew & _ & _).
  assert (length old = d) as Hlen
    by by apply (shaped_fibre n n d) in Hold as (_ & _ & ?).
  pose proof (broadcast_to_length _ _ _ Hv') as Hlen'.
  unfold entry. rewrite Hnew, Hold. cbn [mbind option_bind]. split.
  - intros k Hk. destruct (decide (k < d)%nat).
    + rewrite lookup_app_l by (rewrite length_take; lia).
      apply lookup_take_lt. lia.
    + rewrite (proj2 (lookup_ge_None old k)) by lia.
      apply lookup_ge_None.
      rewrite !length_app, length_take, length_drop. lia.
  - intros k Hk Hv.
    assert (v' = v) as ->.
    { unfold broadcast_to in Hv'.
      case_decide; [by injection Hv' as ->|lia]. }
    rewrite lookup_app_r by (rewrite length_take; lia).
    rewrite length_take.
    replace (k - (2 `min` d) `min` length old)%nat with (k - 2)%nat by lia.
    apply lookup_app_l. lia.
Qed.

Section Foreground.
Variable loadtxt : string → result (list (npfloat * npfloat)).
Variables (fg_dir : string) (all_freqs : list string) (lmax : Z).

Local Abbreviation n := (length all_freqs).
Local Abbreviation d := (Z.to_nat lmax).
Local Abbreviation fg_stored := (fg_stored loadtxt fg_dir all_freqs lmax).
Local Abbreviation fg_inv := (fg_inv loadtxt all_freqs lmax).

Lemma fg_pair_skip c1 f1 c2 f2 st :
  (c2 < c1)%nat → fg_pair loadtxt fg_dir lmax c1 f1 st (c2, f2) = Ok st.
Proof.
  intros. unfold fg_pair. destruct st as [l0 t]. by case_decide; [|lia].
Qed.

Lemma fg_pair_run c1 f1 c2 f2 st st' :
  0 ≤ lmax →
  all_freqs !! c1 = Some f1 → all_freqs !! c2 = Some f2 → (c1 ≤ c2)%nat →
  fg_inv st →
  fg_pair loadtxt fg_dir lmax c1 f1 st (c2, f2) = Ok st' →
  fg_inv st' ∧ fg_stored c1 c2 st' ∧
  ∀ i j, (i, j) ≠ (c1, c2) → fg_stored i j st → fg_stored i j st'.
Proof.
  intros Hlmax Hf1 Hf2 Hle (Hs & Hzero & Hl). unfold fg_pair.
  destruct st as [l0 t]. simpl in Hs, Hzero, Hl.
  case_decide; [lia|].
  intros (rows & Hrows & ([l fl] & Hun & (t' & Hset & [= <-])%bind_Ok)%bind_Ok)%bind_Ok.
  apply unpack_Ok in Hun as (-> & -> & Hlen).
  destruct (setitem_spec n n d _ _ _ _ _ _ _ Hs Hset)
    as (old & v' & Hold & Hv' & _ & Hkeep & Hs').
  destruct (setitem_from2 n d _ _ _ _ _ Hs Hset) as [Hlow Hhigh].
  split; [|split].
  - split; [done|]. split.
    + intros i j k Hi Hj Hk Hkd. simpl.
      destruct (decide ((i, j) = (c1, c2))) as [[= -> ->]|Hne].
      * rewrite Hlow by done. by apply Hzero.
      * unfold entry. rewrite Hkeep by done. by apply Hzero.
    + intros l [= <-]. by exists (fg_file fg_dir f1 f2), rows.
  - intros g1 g2 Hg1 Hg2. simplify_eq. exists rows. split; [done|].
    intros k Hk. simpl.
    assert (length (slice_to (lmax - 2)
              (mul_a rows.*2 (s_div (np_mul (of_Z 2) np_pi)
                 (mul_a rows.*1 (add_s rows.*1 (of_Z 1))))))
            = (d - 2)%nat) as Hv.
    { apply broadcast_to_length in Hv' as Hlen'.
      unfold broadcast_to in Hv'.
      replace (d `min` d - 2 `min` d)%nat with (d - 2)%nat in Hv' by lia.
      case_decide as Heq; [done|].
      case_decide as Hone; [|done]. exfalso. apply Heq.
      rewrite slice_to_nonneg, length_take, fg_rhs_length in Hone |- * by lia.
      lia. }
    rewrite Hhigh by done.
    rewrite slice_to_nonneg, length_take, fg_rhs_length in Hv by lia.
    destruct (lookup_lt_is_Some_2 rows (k - 2)%nat) as [[lk fk] Hr]; [lia|].
    exists lk, fk. split; [done|].
    rewrite slice_to_nonneg, lookup_take_lt by lia.
    by apply fg_rhs_lookup.
  - intros i j Hne Hst g1 g2 Hg1 Hg2.
    destruct (Hst g1 g2 Hg1 Hg2) as (rows' & Hrows' & He).
    exists rows'. split; [done|]. intros k Hk. simpl in *.
    unfold entry in *. rewrite Hkeep by done. by apply He.
Qed.

Lemma get_foreground_matrix_run (l : array) (F : tensor) :
  get_foreground_matrix loadtxt fg_dir all_freqs lmax = Ok (l, F) →
  ∃ st : option array * tensor,
    0 ≤ lmax ∧ st.1 = Some l ∧ fg_inv st ∧
    (∀ i j, (i ≤ j < n)%nat → fg_stored i j st) ∧
    symmetrize st.2 lmax = Ok F.
Proof.
  unfold get_foreground_matrix.
  intros (t0 & Ht0 & (st & Hloop & Hrest)%bind_Ok)%bind_Ok.
  destruct st as [l1 t1].
  apply bind_Ok in Hrest as (F' & HF & Hret).
  destruct l1 as [l1|]; [|done]. injection Hret as <- <-.
  apply np_zeros_spec in Ht0 as (Hlmax & Hs0 & Hz0).
  exists (Some l1, t1). split; [done|]. split; [done|].
  destruct (pair_loop_inv (fg_pair loadtxt fg_dir lmax) all_freqs
    fg_inv fg_stored) with (s0 := (None : option array, t0))
    (s' := (Some l1, t1)) as [HI HQ]; try done.
  - intros. by apply fg_pair_skip.
  - intros. by apply (fg_pair_run c1 x1 c2 x2 s).
  - split; [done|]. split; [|done].
    intros i j k Hi Hj _ Hk. simpl.
    rewrite (entry_Some_total n n d t0 i j k _ Hs0 (Hz0 i j Hi Hj)) by done.
    by rewrite lookup_total_replicate_2.
Qed.

Lemma foreground_matrix_symmetric (l : array) (F : tensor) :
  get_foreground_matrix loadtxt fg_dir all_freqs lmax = Ok (l, F) →
  ∀ i j k, entry F i j k = entry F j i k.
Proof.
  intros (st & Hlmax & _ & (Hs & _) & _ & HF)%get_foreground_matrix_run.
  apply (symmetrize_symmetric n _ _ lmax Hs HF).
Qed.

(** The entries of the upper triangle from index 2 on. *)
Lemma foreground_matrix_upper (l : array) (F : tensor) i j f1 f2 k :
  get_foreground_matrix loadtxt fg_dir all_freqs lmax = Ok (l, F) →
  (i ≤ j)%nat → all_freqs !! i = Some f1 → all_freqs !! j = Some f2 →
  (2 ≤ k)%nat → Z.of_nat k < lmax →
  ∃ rows lk fk,
    loadtxt (fg_file fg_dir f1 f2) = Ok rows ∧
    rows !! (k - 2)%nat = Some (lk, fk) ∧
    entry F i j k = Some (fg_rescaled fk lk).
Proof.
  intros (st & Hlmax & _ & (Hs & _) & Hst & HF)%get_foreground_matrix_run
    Hij Hf1 Hf2 Hk2 Hk.
  assert (i ≤ j < n)%nat as Hrange by (apply lookup_lt_Some in Hf2; lia).
  destruct (Hst i j Hrange f1 f2 Hf1 Hf2) as (rows & Hrows & He).
  destruct (He k) as (lk & fk & Hr & Hent); [lia|].
  exists rows, lk, fk. split; [done|]. split; [done|].
  destruct (symmetrize_spec n _ _ lmax Hs HF) as [_ ->].
  by case_decide; [|lia].
Qed.

(** The returned axis is the whole first column of one of the tables. *)
Lemma foreground_matrix_axis (l : array) (F : tensor) :
  get_foreground_matrix loadtxt fg_dir all_freqs lmax = Ok (l, F) →
  ∃ path rows, loadtxt path = Ok rows ∧ l = rows.*1 ∧ (2 ≤ length rows)%nat.
Proof.
  intros (st & _ & Hl & (_ & _ & Hax) & _)%get_foreground_matrix_run.
  by apply Hax.
Qed.
End Foreground.

(** ** generate_noise_alms *)

Section Realizations.
Context {Rng Alm : Type}.
Variable rand_alm : option tensor → Z → dtype → Rng → result (Alm * Rng).
Variables (nl_array_t : tensor) (lmax n_splits : Z) (dt : dtype).

Lemma draw_Ok ps k (st st' : gmap key Alm * Rng) :
  draw rand_alm ps lmax dt k st = Ok st' ↔
  ∃ alm, rand_alm ps lmax dt st.2 = Ok (alm, st'.2) ∧
         st'.1 = <[k := alm]> st.1.
Proof.
  unfold draw. destruct st as [nlms g], st' as [nlms' g']. simpl.
  rewrite bind_Ok. split.
  - intros ([alm g1] & Hdraw & [= <- <-]). by exists alm.
  - intros (alm & Hdraw & ->). by exists (alm, g').
Qed.

Lemma draw_Raise ps k (st : gmap key Alm * Rng) :
  is_Raise (rand_alm ps lmax dt st.2) →
  is_Raise (draw rand_alm ps lmax dt k st).
Proof. destruct st as [nlms g]. intros [e He]. exists e. simpl in *. by rewrite He. Qed.

Lemma draw_total ps k (st : gmap key Alm * Rng) :
  (∀ g, is_Ok (rand_alm ps lmax dt g)) →
  is_Ok (draw rand_alm ps lmax dt k st).
Proof.
  intros Hps. destruct st as [nlms g]. destruct (Hps g) as [[alm g'] He].
  eexists. simpl. by rewrite He.
Qed.

(** The temperature-only loop: after [m] splits the keys are the split
    indices below [m]. *)
Lemma split_loop_keys (nlms : gmap key Alm) (g g' : Rng) :
  foldM (λ st k, draw rand_alm (Some nl_array_t) lmax dt (KSplit k) st)
        (∅, g) (range n_splits) = Ok (nlms, g') →
  (∀ x, x ∈ dom nlms ↔ ∃ k, x = KSplit k ∧ Z.of_nat k < n_splits) ∧
  size nlms = Z.to_nat n_splits.
Proof.
  intros Hrun.
  pose (P := λ (m : nat) (st : gmap key Alm * Rng),
    (∀ x, x ∈ dom st.1 ↔ ∃ k, x = KSplit k ∧ (k < m)%nat) ∧
    size st.1 = m).
  assert (P (length (range n_splits)) (nlms, g')) as [Hkeys Hsize].
  { apply (foldM_inv _ P (range n_splits) (∅, g)) in Hrun; [done| |].
    - split; [|done]. intros x. simpl. rewrite dom_empty_L.
      split; [set_solver|]. intros (k & _ & ?). lia.
    - intros m k st st' [-> Hm]%lookup_range [Hdom Hsz]
        (alm & _ & Hst')%draw_Ok.
      assert (st.1 !! KSplit m = None) as Hfresh.
      { apply not_elem_of_dom. rewrite Hdom. intros (k & [= <-] & ?). lia. }
      unfold P. rewrite Hst'. split.
      + intros x. rewrite dom_insert_L, elem_of_union, elem_of_singleton, Hdom.
        split.
        * intros [->|(k & -> & ?)]; [exists m|exists k]; split; done || lia.
        * intros (k & -> & Hk). destruct (decide (k = m)) as [->|];
            [by left|right]. exists k. split; [done|lia].
      + rewrite map_size_insert_None by done. by rewrite Hsz. }
  rewrite length_range in Hkeys, Hsize. simpl in Hkeys, Hsize.
  split; [|done]. intros x. rewrite Hkeys.
  split; intros (k & -> & ?); exists k; split; done || lia.
Qed.

Local Abbreviation drawn_from := (drawn_from rand_alm lmax dt).

(** The three-component loop: after [m] splits the keys are the pairs
    of a component and a split index below [m]; the ["T"] values are
    drawn from [nl_array_t], the ["E"] and ["B"] values from
    [nl_array_pol]. *)
Lemma comp_loop_keys (nl_array_pol : option tensor)
    (nlms : gmap key Alm) (g g' : Rng) :
  foldM (λ st k,
           st ← draw rand_alm (Some nl_array_t) lmax dt (KComp "T" k) st;
           st ← draw rand_alm nl_array_pol lmax dt (KComp "E" k) st;
           draw rand_alm nl_array_pol lmax dt (KComp "B" k) st)
        (∅, g) (range n_splits) = Ok (nlms, g') →
  (∀ x, x ∈ dom nlms ↔
        ∃ c k, x = KComp c k ∧ c ∈ ["T"; "E"; "B"] ∧ Z.of_nat k < n_splits) ∧
  size nlms = (3 * Z.to_nat n_splits)%nat ∧
  (∀ c k alm, nlms !! KComp c k = Some alm →
     drawn_from (if decide (c = "T") then Some nl_array_t else nl_array_pol)
                alm).
Proof.
  intros Hrun.
  pose (P := λ (m : nat) (st : gmap key Alm * Rng),
    (∀ x, x ∈ dom st.1 ↔
          ∃ c k, x = KComp c k ∧ c ∈ ["T"; "E"; "B"] ∧ (k < m)%nat) ∧
    size st.1 = (3 * m)%nat ∧
    (∀ c k alm, st.1 !! KComp c k = Some alm →
       drawn_from (if decide (c = "T") then Some nl_array_t
                   else nl_array_pol) alm)).
  assert (P (length (range n_splits)) (nlms, g')) as (Hkeys & Hsize & Hfrom).
  { apply (foldM_inv _ P (range n_splits) (∅, g)) in Hrun; [done| |].
    - split; [|split; [done|]].
      + intros x. simpl. rewrite dom_empty_L.
        split; [set_solver|]. intros (c & k & _ & _ & ?). lia.
      + intros c k alm. simpl. by rewrite lookup_empty.
    - intros m k st st4 [-> Hm]%lookup_range (Hdom & Hsz & Hdr)
        (st1 & (aT & HdT & Hst1)%draw_Ok &
         (st2 & (aE & HdE & Hst2)%draw_Ok & (aB & HdB & Hst4)%draw_Ok)%bind_Ok)%bind_Ok.
      assert (∀ c, st.1 !! KComp c m = None) as Hfresh.
      { intros c. apply not_elem_of_dom. rewrite Hdom.
        intros (c' & k & [= <- <-] & _ & ?). lia. }
      unfold P. rewrite Hst4, Hst2, Hst1. split; [|split].
      + intros x. rewrite !dom_insert_L, !elem_of_union, !elem_of_singleton, Hdom.
        split.
        * intros [->|[->|[->|(c & k & -> & Hc & ?)]]];
            [exists "B", m|exists "E", m|exists "T", m|exists c, k];
            (split; [done|split; [first [assumption|repeat constructor]|lia]]).
        * intros (c & k & -> & Hc & Hk).
          destruct (decide (k = m)) as [->|].
          -- rewrite !elem_of_cons, elem_of_nil in Hc.
             destruct Hc as [->|[->|[->|[]]]];
               [do 2 right; by left|right; by left|by left].
          -- do 3 right. exists c, k. split; [done|]. split; [done|lia].
      + rewrite !map_size_insert_None; [lia|..].
        * apply Hfresh.
        * rewrite lookup_insert_ne by done. apply Hfresh.
        * rewrite !lookup_insert_ne by done. apply Hfresh.
      + intros c k alm.
        rewrite !lookup_insert. repeat case_decide; simplify_eq;
          try (intros [= <-]; by eexists _, _);
          intros Hk%Hdr; by case_decide. }
  rewrite length_range in Hkeys, Hsize. simpl in Hkeys, Hsize, Hfrom.
  split; [|done]. intros x. rewrite Hkeys.
  split; intros (c & k & -> & ? & ?); exists c, k; (split; [done|split; [done|lia]]).
Qed.

(** The branch is chosen by [ncomp == 1] alone. *)
Lemma generate_noise_alms_branch ncomp pol g :
  ncomp ≠ 1 →
  generate_noise_alms rand_alm nl_array_t lmax n_splits ncomp pol dt g
  = generate_noise_alms rand_alm nl_array_t lmax n_splits 3 pol dt g.
Proof. intros. unfold generate_noise_alms. by repeat case_decide. Qed.

(** With draws that do not raise, the three-component loop returns. *)
Lemma comp_loop_total pol st ks :
  (∀ g, is_Ok (rand_alm (Some nl_array_t) lmax dt g)) →
  (∀ g, is_Ok (rand_alm pol lmax dt g)) →
  is_Ok (foldM (λ st k,
           st ← draw rand_alm (Some nl_array_t) lmax dt (KComp "T" k) st;
           st ← draw rand_alm pol lmax dt (KComp "E" k) st;
           draw rand_alm pol lmax dt (KComp "B" k) st) st ks).
Proof.
  intros Ht Hp. apply foldM_total. intros s k _.
  destruct (draw_total (Some nl_array_t) (KComp "T" k) s Ht) as [s1 ->].
  simpl. destruct (draw_total pol (KComp "E" k) s1 Hp) as [s2 ->].
  simpl. by apply draw_total.
Qed.
End Realizations.

(** ** The division of the rescaling *)

Lemma np_div_zero_divisor (x y : npfloat) :
  is_zero y = true → np_div x y = divide_by_zero x.
Proof. intros Hy. unfold np_div. by rewrite Hy. Qed.

Lemma np_div_regular (a b : Q) :
  is_zero (Fin b) = false → np_div (Fin a) (Fin b) = Fin (a / b).
Proof. intros Hb. unfold np_div. by rewrite Hb. Qed.

Lemma divide_by_zero_not_finite (x : npfloat) :
  is_finite (divide_by_zero x) = false.
Proof. destruct x as [a| |]; simpl; [by destruct (Qeq_bool a 0)|done..]. Qed.

Lemma divisor_at_zero (l : npfloat) :
  is_zero l = true → is_zero (divisor l) = true.
Proof.
  destruct l as [q| |]; simpl; [|done..].
  intros Hq%Qeq_bool_iff. apply Qeq_bool_iff.
  unfold inject_Z. nra.
Qed.

Lemma divisor_from_one (l : npfloat) :
  ge_one l = true → is_zero (divisor l) = false.
Proof.
  destruct l as [q|[]|]; simpl; try done.
  intros Hq%Qle_bool_iff.
  destruct (Qeq_bool _ _) eqn:Hz; [|done].
  apply Qeq_bool_iff in Hz. exfalso.
  assert (0 < q * (q + inject_Z 1))%Q; [|lra].
  apply Qmult_lt_0_compat; unfold inject_Z; lra.
Qed.

(** On finite values with a regular divisor, the code's left-to-right
    product is the spectrum value times [nsplits * 2 * pi / (l * (l + 1))]. *)
Lemma rescaled_finite (x l : Q) (nsplits : Z) :
  is_zero (divisor (Fin l)) = false →
  ∃ q, rescaled (Fin x) nsplits (Fin l) = Fin q ∧
       (q == x * (inject_Z nsplits * inject_Z 2
                  * (884279719003555 # 281474976710656)
                  / (l * (l + inject_Z 1))))%Q.
Proof.
  intros Hz. eexists. split.
  - unfold rescaled, dividend. simpl. by apply np_div_regular.
  - simpl in Hz. apply Qeq_bool_neq in Hz. field.
    unfold inject_Z in Hz. split; intros Hl; apply Hz; nra.
Qed.

(** * The properties of the specification *)

(** C1. Every populated entry of the tensors returned by
    [get_noise_matrix_spin0and2] (array indices [i <= j], a position [k] of
    the pair's table truncated to [lmax], holding the multipole [row_l r])
    is the rescaled spectrum of the pair: the temperature entry is the TT
    value times [nsplits * 2 * pi / (l * (l + 1))], the polarization entry
    is the average of the EE and BB values times the same factor.  In
    particular, when the TT spectrum is the constant [C], the temperature
    entry (on the diagonal as elsewhere) is [C * nsplits * 2 * pi /
    (l * (l + 1))] at each [l]. *)
Theorem noise_matrix_entries
    (read_ps : string → list string → result (list ps_row))
    (noise_dir survey : string) (arrays : list string) (lmax nsplits : Z)
    (l : array) (T P : tensor) (i j : nat) (ar1 ar2 : string) :
  get_noise_matrix_spin0and2 read_ps noise_dir survey arrays lmax nsplits
    = Ok (l, T, P) →
  (i ≤ j)%nat → arrays !! i = Some ar1 → arrays !! j = Some ar2 →
  ∃ tbl, read_ps (noise_file noise_dir ar1 ar2 survey) spectra = Ok tbl ∧
    ∀ k r, slice_to lmax tbl !! k = Some r →
      entry T i j k = Some (rescaled (row_ps r "TT") nsplits (row_l r)) ∧
      entry P i j k
        = Some (rescaled (average (row_ps r "EE") (row_ps r "BB"))
                         nsplits (row_l r)) ∧
      ∀ C, (∀ r', r' ∈ slice_to lmax tbl → row_ps r' "TT" = C) →
           entry T i j k = Some (rescaled C nsplits (row_l r)).
Proof.
  intros Hrun Hij Har1 Har2.
  destruct (noise_matrix_upper read_ps noise_dir survey arrays lmax nsplits
              l T P i j ar1 ar2 Hrun Hij Har1 Har2) as (tbl & Htbl & He).
  exists tbl. split; [done|]. intros k r Hr.
  destruct (He k r Hr) as [HT HP]. split; [done|]. split; [done|].
  intros C HC. rewrite HT, (HC r); [done|].
  apply list_elem_of_lookup. by exists k.
Qed.

Lemma noise_matrix_entries_witness :
  ∃ l T P,
    get_noise_matrix_spin0and2 (read_ps_in noise_dir_from2)
      "noise" "dr6" ["pa1"; "pa2"] 3 2 = Ok (l, T, P) ∧
    ∃ tbl, read_ps_in noise_dir_from2
             (noise_file "noise" "pa1" "pa2" "dr6") spectra = Ok tbl ∧
      ∀ k r, slice_to 3 tbl !! k = Some r →
        entry T 0 1 k = Some (rescaled (row_ps r "TT") 2 (row_l r)) ∧
        entry P 0 1 k
          = Some (rescaled (average (row_ps r "EE") (row_ps r "BB"))
                           2 (row_l r)) ∧
        ∀ C, (∀ r', r' ∈ slice_to 3 tbl → row_ps r' "TT" = C) →
             entry T 0 1 k = Some (rescaled C 2 (row_l r)).
Proof.
  eexists _, _, _. split; [vm_compute; reflexivity|].
  eapply (noise_matrix_entries (read_ps_in noise_dir_from2)
            "noise" "dr6" ["pa1"; "pa2"] 3 2 _ _ _ 0 1 "pa1" "pa2");
    [vm_compute; reflexivity | lia | reflexivity | reflexivity].
Defined.

(** C2. Every tensor produced by the two assemblers is symmetric under
    the swap of its first two indices: [T[i, j, l] == T[j, i, l]] for the
    two noise tensors and for the foreground tensor, at every pair of
    indices and every multipole (an index out of range has no entry on
    either side). *)
Theorem assembled_tensors_symmetric :
  (∀ read_ps noise_dir survey arrays lmax nsplits (l : array) (T P : tensor),
     get_noise_matrix_spin0and2 read_ps noise_dir survey arrays lmax nsplits
       = Ok (l, T, P) →
     ∀ i j k, entry T i j k = entry T j i k ∧ entry P i j k = entry P j i k) ∧
  (∀ loadtxt fg_dir all_freqs lmax (l : array) (F : tensor),
     get_foreground_matrix loadtxt fg_dir all_freqs lmax = Ok (l, F) →
     ∀ i j k, entry F i j k = entry F j i k).
Proof.
  split.
  - intros read_ps noise_dir survey arrays lmax nsplits l T P Hrun.
    by apply (noise_matrix_symmetric read_ps noise_dir survey arrays lmax
                nsplits l).
  - intros loadtxt fg_dir all_freqs lmax l F Hrun.
    by apply (foreground_matrix_symmetric loadtxt fg_dir all_freqs lmax l).
Qed.

Lemma assembled_tensors_symmetric_witness :
  (∃ l T P,
     get_noise_matrix_spin0and2 (read_ps_in noise_dir_from2)
       "noise" "dr6" ["pa1"; "pa2"] 3 2 = Ok (l, T, P) ∧
     (entry T 0 1 2 = entry T 1 0 2 ∧ entry P 0 1 2 = entry P 1 0 2) ∧
     is_Some (entry T 1 0 2)) ∧
  (∃ l F,
     get_foreground_matrix (loadtxt_in fg_dir_from2) "fg" ["90"; "150"] 4
       = Ok (l, F) ∧
     entry F 0 1 3 = entry F 1 0 3 ∧ is_Some (entry F 1 0 3)).
Proof.
  destruct assembled_tensors_symmetric as [Hnoise Hfg]. split.
  - eexists _, _, _. split; [vm_compute; reflexivity|]. split.
    + eapply (Hnoise (read_ps_in noise_dir_from2) "noise" "dr6"
                ["pa1"; "pa2"] 3 2). vm_compute; reflexivity.
    + vm_compute. eexists. reflexivity.
  - eexists _, _. split; [vm_compute; reflexivity|]. split.
    + eapply (Hfg (loadtxt_in fg_dir_from2) "fg" ["90"; "150"] 4).
      vm_compute; reflexivity.
    + vm_compute. eexists. reflexivity.
Defined.

(** C5. In every foreground tensor returned by [get_foreground_matrix] the
    entries at the multipole indices 0 and 1 are exactly zero, for every
    pair of frequencies and whatever the tables contain. *)
Theorem foreground_zero_fill
    (loadtxt : string → result (list (npfloat * npfloat)))
    (fg_dir : string) (all_freqs : list string) (lmax : Z)
    (l : array) (F : tensor) (i j k : nat) :
  get_foreground_matrix loadtxt fg_dir all_freqs lmax = Ok (l, F) →
  (i < length all_freqs)%nat → (j < length all_freqs)%nat →
  (k < 2)%nat → Z.of_nat k < lmax →
  entry F i j k = Some (Fin 0).
Proof.
  intros (st & Hlmax & _ & (Hs & Hzero & _) & _ & HF)%get_foreground_matrix_run
    Hi Hj Hk Hkd.
  destruct (symmetrize_spec _ _ _ lmax Hs HF) as [_ ->].
  case_decide; apply Hzero; done || lia.
Qed.

Lemma foreground_zero_fill_witness :
  ∃ l F,
    get_foreground_matrix (loadtxt_in fg_dir_from2) "fg" ["90"; "150"] 4
      = Ok (l, F) ∧
    entry F 1 0 1 = Some (Fin 0).
Proof.
  eexists _, _. split; [vm_compute; reflexivity|].
  eapply (foreground_zero_fill (loadtxt_in fg_dir_from2) "fg" ["90"; "150"] 4
            _ _ 1 0 1);
    [vm_compute; reflexivity | simpl; lia | simpl; lia | lia | lia].
Defined.

(** C6, as the code has it.  For every pair of frequencies [i <= j] and
    every index [k] with [2 <= k < lmax], the entry [[i, j, k]] of the
    foreground tensor is the value of line [k - 2] of the pair's table
    times [2 * pi / (l * (l + 1))] for the multipole [l] of that line.
    When the table is tabulated from the quadrupole (line [m] holds the
    multipole [m + 2]), and only then in general, that is the tabulated
    value at multipole [k] rescaled by [2 * pi / (k * (k + 1))]. *)
Theorem foreground_matrix_entries
    (loadtxt : string → result (list (npfloat * npfloat)))
    (fg_dir : string) (all_freqs : list string) (lmax : Z)
    (l : array) (F : tensor) (i j k : nat) (f1 f2 : string) :
  get_foreground_matrix loadtxt fg_dir all_freqs lmax = Ok (l, F) →
  (i ≤ j)%nat → all_freqs !! i = Some f1 → all_freqs !! j = Some f2 →
  (2 ≤ k)%nat → Z.of_nat k < lmax →
  ∃ rows lk fk,
    loadtxt (fg_file fg_dir f1 f2) = Ok rows ∧
    rows !! (k - 2)%nat = Some (lk, fk) ∧
    entry F i j k = Some (fg_rescaled fk lk) ∧
    ((∀ m lm fm, rows !! m = Some (lm, fm) → lm = of_Z (Z.of_nat m + 2)) →
     rows !! (k - 2)%nat = Some (of_Z (Z.of_nat k), fk) ∧
     entry F i j k = Some (fg_rescaled fk (of_Z (Z.of_nat k)))).
Proof.
  intros Hrun Hij Hf1 Hf2 Hk2 Hk.
  destruct (foreground_matrix_upper loadtxt fg_dir all_freqs lmax l F
              i j f1 f2 k Hrun Hij Hf1 Hf2 Hk2 Hk)
    as (rows & lk & fk & Hrows & Hr & He).
  exists rows, lk, fk. repeat (split; [done|]).
  intros Hfrom2. pose proof (Hfrom2 _ _ _ Hr) as ->.
  by replace (Z.of_nat (k - 2) + 2) with (Z.of_nat k) in Hr, He by lia.
Qed.

Lemma foreground_matrix_entries_witness :
  ∃ l F fk,
    get_foreground_matrix (loadtxt_in fg_dir_from2) "fg" ["90"; "150"] 4
      = Ok (l, F) ∧
    fk = of_Z 2 ∧
    entry F 0 1 3 = Some (fg_rescaled fk (of_Z 3)).
Proof.
  destruct (foreground_matrix_entries (loadtxt_in fg_dir_from2) "fg"
              ["90"; "150"] 4
              (of_Z <$> [2; 3; 4; 5; 6])
              [[[Fin 0; Fin 0; fg_rescaled (of_Z 3) (of_Z 2);
                 fg_rescaled (of_Z 6) (of_Z 3)];
                [Fin 0; Fin 0; fg_rescaled (of_Z 1) (of_Z 2);
                 fg_rescaled (of_Z 2) (of_Z 3)]];
               [[Fin 0; Fin 0; fg_rescaled (of_Z 1) (of_Z 2);
                 fg_rescaled (of_Z 2) (of_Z 3)];
                [Fin 0; Fin 0; fg_rescaled (of_Z 9) (of_Z 2);
                 fg_rescaled (of_Z 8) (of_Z 3)]]]
              0%nat 1%nat 3%nat "90" "150")
    as (rows & lk & fk & Hrows & Hr & He & Hconv);
    [vm_compute; reflexivity | lia | reflexivity | reflexivity | lia | lia |].
  injection Hrows as <-.
  destruct Hconv as [Hr' He'].
  { intros m lm fm Hm.
    do 5 (destruct m as [|m]; [by injection Hm as <- <-|]). done. }
  eexists _, _, fk. split; [vm_compute; reflexivity|].
  split; [|exact He'].
  simpl in Hr'. by injection Hr' as <-.
Defined.

(** C6, as stated, fails: the index [k] is tied to the line [k - 2], not
    to the multipole [k].  On a table tabulated from l = 0 (lines 0, 1, 2,
    3, 4) with [lmax = 4], the value tabulated at multipole 2 is 12, but the
    entry of index 2 is line 0 (multipole 0, value 5) rescaled with
    [l = 0], that is [5 * (2 * pi / 0) = inf], not
    [12 * (2 * pi / (2 * 3))]. *)
Lemma foreground_matrix_entries_from_zero :
  ∃ l F rows,
    get_foreground_matrix (loadtxt_in fg_dir_from0) "fg" ["90"] 4
      = Ok (l, F) ∧
    loadtxt_in fg_dir_from0 (fg_file "fg" "90" "90") = Ok rows ∧
    rows !! 2%nat = Some (of_Z 2, of_Z 12) ∧
    entry F 0 0 2 = Some (Inf false) ∧
    entry F 0 0 2 ≠ Some (fg_rescaled (of_Z 12) (of_Z 2)).
Proof.
  eexists _, _, _. split; [vm_compute; reflexivity|].
  split; [vm_compute; reflexivity|]. split; [reflexivity|].
  split; [vm_compute; reflexivity|]. vm_compute. discriminate.
Qed.

(** C7. The multipole axis returned by [get_foreground_matrix] is not cut
    at [lmax]: with two frequencies, tables of five lines (multipoles 2 to
    6) and [lmax = 4], the returned axis is the whole column 2, 3, 4, 5, 6
    of the last table read, next to a tensor of four multipoles. *)
Theorem foreground_axis_is_whole_column :
  ∃ F : tensor,
    get_foreground_matrix (loadtxt_in fg_dir_from2) "fg" ["90"; "150"] 4
      = Ok (of_Z <$> [2; 3; 4; 5; 6], F) ∧
    shaped 2 2 4 F.
Proof.
  eexists. split; [vm_compute; reflexivity|].
  split; [done|]. intros i plane Hi.
  do 2 (destruct i as [|i]; [injection Hi as <-; split; [done|];
    intros j f Hj; do 2 (destruct j as [|j]; [by injection Hj as <-|]); done|]).
  done.
Qed.

(** C8. The rescaling of [get_noise_matrix_spin0and2] divides by
    [l * (l + 1)] without a guard.  At a position of the truncated axis
    where [l = 0] the divisor is zero, so that the division takes its
    zero-divisor case: the temperature and polarization entries are the
    values [divide_by_zero] of their dividends ([inf], [-inf] or [nan],
    never finite).  At a position where [l >= 1] the divisor is not zero
    and that case is not taken. *)
Theorem noise_rescaling_zero_divisor
    (read_ps : string → list string → result (list ps_row))
    (noise_dir survey : string) (arrays : list string) (lmax nsplits : Z)
    (l : array) (T P : tensor) (i j : nat) (ar1 ar2 : string) :
  get_noise_matrix_spin0and2 read_ps noise_dir survey arrays lmax nsplits
    = Ok (l, T, P) →
  (i ≤ j)%nat → arrays !! i = Some ar1 → arrays !! j = Some ar2 →
  ∃ tbl, read_ps (noise_file noise_dir ar1 ar2 survey) spectra = Ok tbl ∧
    ∀ k r, slice_to lmax tbl !! k = Some r →
      entry T i j k
        = Some (np_div (dividend (row_ps r "TT") nsplits)
                       (divisor (row_l r))) ∧
      entry P i j k
        = Some (np_div (dividend (average (row_ps r "EE") (row_ps r "BB"))
                                 nsplits)
                       (divisor (row_l r))) ∧
      (is_zero (row_l r) = true →
         is_zero (divisor (row_l r)) = true ∧
         (∃ t, entry T i j k = Some t ∧ is_finite t = false ∧
               t = divide_by_zero (dividend (row_ps r "TT") nsplits)) ∧
         (∃ p, entry P i j k = Some p ∧ is_finite p = false ∧
               p = divide_by_zero
                     (dividend (average (row_ps r "EE") (row_ps r "BB"))
                               nsplits))) ∧
      (ge_one (row_l r) = true → is_zero (divisor (row_l r)) = false).
Proof.
  intros Hrun Hij Har1 Har2.
  destruct (noise_matrix_upper read_ps noise_dir survey arrays lmax nsplits
              l T P i j ar1 ar2 Hrun Hij Har1 Har2) as (tbl & Htbl & He).
  exists tbl. split; [done|]. intros k r Hr.
  destruct (He k r Hr) as [HT HP]. unfold rescaled in HT, HP.
  split; [done|]. split; [done|]. split; [|apply divisor_from_one].
  intros Hz%divisor_at_zero. split; [done|].
  rewrite HT, HP, !np_div_zero_divisor by done.
  split; eexists; (split; [done|]);
    (split; [apply divide_by_zero_not_finite|done]).
Qed.

Lemma noise_rescaling_zero_divisor_witness :
  ∃ l T P,
    get_noise_matrix_spin0and2 (read_ps_in noise_dir_from0)
      "noise" "dr6" ["pa1"] 3 1 = Ok (l, T, P) ∧
    l !! 0%nat = Some (of_Z 0) ∧
    entry T 0 0 0 = Some (Inf false) ∧
    entry P 0 0 0 = Some (Inf false).
Proof.
  destruct (noise_rescaling_zero_divisor (read_ps_in noise_dir_from0)
              "noise" "dr6" ["pa1"] 3 1
              (of_Z <$> [0; 1; 2])
              [[[Inf false; rescaled (of_Z 6) 1 (of_Z 1);
                 rescaled (of_Z 12) 1 (of_Z 2)]]]
              [[[Inf false; rescaled (average (of_Z 4) (of_Z 8)) 1 (of_Z 1);
                 rescaled (average (of_Z 2) (of_Z 4)) 1 (of_Z 2)]]]
              0%nat 0%nat "pa1" "pa1")
    as (tbl & Htbl & He);
    [vm_compute; reflexivity | lia | reflexivity | reflexivity |].
  injection Htbl as <-.
  destruct (He 0%nat (mk_row 0 5 1 3) eq_refl)
    as (_ & _ & Hzero & _).
  destruct (Hzero eq_refl) as (_ & (t & Ht & _ & Htv) & (p & Hp & _ & Hpv)).
  eexists _, _, _. split; [vm_compute; reflexivity|].
  split; [reflexivity|]. split.
  - rewrite Htv in Ht. exact Ht.
  - rewrite Hpv in Hp. exact Hp.
Defined.

(** C3, as the code has it.  [generate_noise_alms] has no check of its
    own on [nl_array_pol]: with [ncomp == 3] and [nl_array_pol] left at
    [None] it hands [None] to the draw primitive.  Without a split to draw
    ([n_splits <= 0]) it returns the empty dictionary; with at least one
    split it raises as soon as the primitive rejects a missing spectrum. *)
Theorem generate_noise_alms_without_pol {Rng Alm : Type}
    (rand_alm : option tensor → Z → dtype → Rng → result (Alm * Rng))
    (nl_array_t : tensor) (lmax n_splits : Z) (dt : dtype) (g : Rng) :
  (n_splits ≤ 0 →
     generate_noise_alms rand_alm nl_array_t lmax n_splits 3 None dt g
       = Ok (∅, g)) ∧
  (0 < n_splits →
     (∀ g1, is_Raise (rand_alm None lmax dt g1)) →
     is_Raise (generate_noise_alms rand_alm nl_array_t lmax n_splits 3 None
                 dt g)).
Proof.
  unfold generate_noise_alms. case_decide; [done|]. split.
  - intros Hn. unfold range. by replace (Z.to_nat n_splits) with 0%nat by lia.
  - intros Hn Hnone. unfold range.
    destruct (Z.to_nat n_splits) as [|m] eqn:Hm; [lia|].
    cbn [foldM seq]. apply bind_Raise.
    destruct (result_cases
      (draw rand_alm (Some nl_array_t) lmax dt (KComp "T" 0) (∅, g)))
      as [[st ->]|Hraise]; [|by apply bind_Raise].
    cbn [mbind result_bind]. apply bind_Raise, draw_Raise, Hnone.
Qed.

Lemma generate_noise_alms_without_pol_witness :
  generate_noise_alms counting_rand_alm [] 10 0 3 None complex128 0%nat
    = Ok (∅, 0%nat) ∧
  is_Raise (generate_noise_alms counting_rand_alm [] 10 2 3 None complex128
              0%nat).
Proof.
  destruct (generate_noise_alms_without_pol counting_rand_alm [] 10 0
              complex128 0%nat) as [Hzero _].
  destruct (generate_noise_alms_without_pol counting_rand_alm [] 10 2
              complex128 0%nat) as [_ Hpos].
  split.
  - apply Hzero. lia.
  - apply Hpos; [lia|]. intros g1. by exists IndexError.
Defined.

(** C3, as stated, fails: with [ncomp == 3], [nl_array_pol] left at [None]
    and no split to draw, the call returns the empty dictionary; no error
    is raised, even though the draw primitive rejects a missing
    spectrum. *)
Lemma generate_noise_alms_without_pol_returns :
  (∀ lmax dt g, is_Raise (counting_rand_alm None lmax dt g)) ∧
  generate_noise_alms counting_rand_alm [] 10 0 3 None complex128 0%nat
    = Ok (∅, 0%nat) ∧
  ¬ is_Raise (generate_noise_alms counting_rand_alm [] 10 0 3 None complex128
                0%nat).
Proof.
  split; [intros; by exists IndexError|].
  split; [reflexivity|]. intros [e He]. discriminate He.
Qed.

(** C4. For every call of [generate_noise_alms] that returns: with
    [ncomp == 1] the keys of the dictionary are exactly the split indices
    [0 .. n_splits - 1], and there are [n_splits] of them; with
    [ncomp == 3] the keys are exactly the pairs [(c, k)] of a component
    [c] among ["T"], ["E"], ["B"] and a split index [k] in
    [0 .. n_splits - 1], and there are [3 * n_splits] of them.
    ([Z.to_nat n_splits] is [n_splits] as a count.) *)
Theorem generate_noise_alms_keys {Rng Alm : Type}
    (rand_alm : option tensor → Z → dtype → Rng → result (Alm * Rng))
    (nl_array_t : tensor) (lmax n_splits ncomp : Z)
    (nl_array_pol : option tensor) (dt : dtype) (g g' : Rng)
    (nlms : gmap key Alm) :
  generate_noise_alms rand_alm nl_array_t lmax n_splits ncomp nl_array_pol
    dt g = Ok (nlms, g') →
  (ncomp = 1 →
     (∀ x, x ∈ dom nlms ↔ ∃ k, x = KSplit k ∧ Z.of_nat k < n_splits) ∧
     size nlms = Z.to_nat n_splits) ∧
  (ncomp = 3 →
     (∀ x, x ∈ dom nlms ↔
           ∃ c k, x = KComp c k ∧ c ∈ ["T"; "E"; "B"] ∧
                  Z.of_nat k < n_splits) ∧
     size nlms = (3 * Z.to_nat n_splits)%nat).
Proof.
  unfold generate_noise_alms. intros Hrun. split; intros ->.
  - case_decide; [|done]. by apply (split_loop_keys rand_alm nl_array_t lmax
                                      n_splits dt nlms g g').
  - case_decide; [done|].
    destruct (comp_loop_keys rand_alm nl_array_t lmax n_splits dt
                nl_array_pol nlms g g' Hrun) as (Hkeys & Hsize & _).
    done.
Qed.

Lemma generate_noise_alms_keys_witness :
  (size two_splits_T = Z.to_nat 2 ∧ KSplit 1 ∈ dom two_splits_T) ∧
  (size two_splits_TEB = (3 * Z.to_nat 2)%nat ∧
   KComp "B" 1 ∈ dom two_splits_TEB).
Proof.
  destruct (generate_noise_alms_keys counting_rand_alm [] 10 2 1 None
              complex128 0%nat 2%nat two_splits_T) as [[Hk1 Hs1] _];
    [vm_compute; reflexivity | reflexivity |].
  destruct (generate_noise_alms_keys counting_rand_alm [] 10 2 3 (Some [])
              complex128 0%nat 6%nat two_splits_TEB) as [_ [Hk3 Hs3]];
    [vm_compute; reflexivity | reflexivity |].
  split; (split; [assumption|]).
  - apply Hk1. exists 1%nat. split; [reflexivity|lia].
  - apply Hk3. exists "B", 1%nat. split; [reflexivity|].
    split; [repeat constructor|lia].
Defined.

(** C9. With [ncomp == 1] the polarization tensor is never touched: two
    calls that agree on every other input and on the state of the random
    source return the same dictionary (and leave the random source in the
    same state), whatever their [nl_array_pol], [None] included. *)
Theorem generate_noise_alms_ignores_pol {Rng Alm : Type}
    (rand_alm : option tensor → Z → dtype → Rng → result (Alm * Rng))
    (nl_array_t : tensor) (lmax n_splits : Z)
    (pol1 pol2 : option tensor) (dt : dtype) (g : Rng) :
  generate_noise_alms rand_alm nl_array_t lmax n_splits 1 pol1 dt g
  = generate_noise_alms rand_alm nl_array_t lmax n_splits 1 pol2 dt g.
Proof. unfold generate_noise_alms. by case_decide. Qed.

(** C10. [generate_noise_alms] branches on [ncomp == 1] alone.  For every
    other value of [ncomp] it runs the three-component path: the call is
    the call with [ncomp = 3]; when it returns, the dictionary has, for
    each split [k], the keys [("T", k)], [("E", k)], [("B", k)] and no
    others, the ["T"] value drawn from [nl_array_t] and the ["E"] and
    ["B"] values drawn from [nl_array_pol]; and it raises nothing of its
    own: when the draws do not raise, the call returns. *)
Theorem generate_noise_alms_other_ncomp {Rng Alm : Type}
    (rand_alm : option tensor → Z → dtype → Rng → result (Alm * Rng))
    (nl_array_t : tensor) (lmax n_splits ncomp : Z)
    (nl_array_pol : option tensor) (dt : dtype) (g : Rng) :
  ncomp ≠ 1 →
  generate_noise_alms rand_alm nl_array_t lmax n_splits ncomp nl_array_pol
    dt g
  = generate_noise_alms rand_alm nl_array_t lmax n_splits 3 nl_array_pol
      dt g ∧
  (∀ nlms g',
     generate_noise_alms rand_alm nl_array_t lmax n_splits ncomp
       nl_array_pol dt g = Ok (nlms, g') →
     (∀ x, x ∈ dom nlms ↔
           ∃ c k, x = KComp c k ∧ c ∈ ["T"; "E"; "B"] ∧
                  Z.of_nat k < n_splits) ∧
     (∀ k, Z.of_nat k < n_splits →
        ∃ aT aE aB,
          nlms !! KComp "T" k = Some aT ∧
          nlms !! KComp "E" k = Some aE ∧
          nlms !! KComp "B" k = Some aB ∧
          drawn_from rand_alm lmax dt (Some nl_array_t) aT ∧
          drawn_from rand_alm lmax dt nl_array_pol aE ∧
          drawn_from rand_alm lmax dt nl_array_pol aB)) ∧
  ((∀ g1, is_Ok (rand_alm (Some nl_array_t) lmax dt g1)) →
   (∀ g1, is_Ok (rand_alm nl_array_pol lmax dt g1)) →
   is_Ok (generate_noise_alms rand_alm nl_array_t lmax n_splits ncomp
            nl_array_pol dt g)).
Proof.
  intros Hncomp. split; [by apply generate_noise_alms_branch|].
  unfold generate_noise_alms. case_decide; [done|]. split.
  - intros nlms g' Hrun.
    destruct (comp_loop_keys rand_alm nl_array_t lmax n_splits dt
                nl_array_pol nlms g g' Hrun) as (Hkeys & _ & Hfrom).
    split; [done|]. intros k Hk.
    assert (∀ c, c ∈ ["T"; "E"; "B"] → is_Some (nlms !! KComp c k)) as Hin.
    { intros c Hc. apply elem_of_dom, Hkeys. by exists c, k. }
    destruct (Hin "T") as [aT HT]; [repeat constructor|].
    destruct (Hin "E") as [aE HE]; [repeat constructor|].
    destruct (Hin "B") as [aB HB]; [repeat constructor|].
    exists aT, aE, aB. repeat (split; [done|]).
    split; [apply (Hfrom "T" k aT HT)|].
    split; [apply (Hfrom "E" k aE HE)|apply (Hfrom "B" k aB HB)].
  - intros Ht Hp. by apply comp_loop_total.
Qed.

Lemma generate_noise_alms_other_ncomp_witness :
  generate_noise_alms counting_rand_alm [] 10 2 2 (Some []) complex128 0%nat
  = generate_noise_alms counting_rand_alm [] 10 2 3 (Some []) complex128 0%nat
  ∧ is_Ok (generate_noise_alms counting_rand_alm [] 10 2 2 (Some [])
             complex128 0%nat).
Proof.
  destruct (generate_noise_alms_other_ncomp counting_rand_alm [] 10 2 2
              (Some []) complex128 0%nat) as (Heq & _ & Hok); [lia|].
  split; [exact Heq|].
  apply Hok; intros g1; by eexists.
Defined.


(** * Further properties of the three functions *)

(** ** Loops: splitting, extensionality, running to the end *)

Lemma foldM_app {S A} (body : S → A → result S) (xs ys : list A) (s : S) :
  foldM body s (xs ++ ys) = foldM body s xs ≫= λ s', foldM body s' ys.
Proof.
  revert s. induction xs as [|x xs IH]; intros s; simpl; [done|].
  destruct (body s x) as [s1|e]; simpl; [apply IH|done].
Qed.

Lemma foldM_ext {S A} (f g : S → A → result S) (xs : list A) (s : S) :
  (∀ i x s', xs !! i = Some x → f s' x = g s' x) →
  foldM f s xs = foldM g s xs.
Proof.
  revert s. induction xs as [|x xs IH]; intros s Hfg; simpl; [done|].
  rewrite (Hfg 0%nat x s) by done.
  destruct (g s x) as [s1|e]; simpl; [|done].
  apply IH. intros i y s' Hy. by apply (Hfg (Datatypes.S i)).
Qed.

(** A loop whose body keeps an invariant and returns under it runs to its
    end. *)
Lemma foldM_inv_total {S A} (body : S → A → result S) (P : nat → S → Prop)
    (xs : list A) (s0 : S) :
  P 0%nat s0 →
  (∀ i x s, xs !! i = Some x → P i s →
     ∃ s1, body s x = Ok s1 ∧ P (Datatypes.S i) s1) →
  ∃ s', foldM body s0 xs = Ok s' ∧ P (length xs) s'.
Proof.
  revert P s0. induction xs as [|x xs IH]; intros P s0 H0 Hstep.
  - by exists s0.
  - destruct (Hstep 0%nat x s0) as (s1 & Hx & H1); [done..|].
    destruct (IH (λ i, P (Datatypes.S i)) s1) as (s' & Hrun & HP); [done| |].
    + intros i y s Hy. by apply (Hstep (Datatypes.S i)).
    + exists s'. simpl. by rewrite Hx.
Qed.

Lemma enumerate_from_snoc {A} (xs : list A) (x : A) (i : nat) :
  enumerate_from i (xs ++ [x])
  = enumerate_from i xs ++ [((i + length xs)%nat, x)].
Proof.
  revert i. induction xs as [|y xs IH]; intros i; simpl.
  - by rewrite Nat.add_0_r.
  - rewrite IH. by replace (Datatypes.S i + length xs)%nat
      with (i + Datatypes.S (length xs))%nat by lia.
Qed.

Lemma enumerate_snoc {A} (xs : list A) (x : A) :
  enumerate (xs ++ [x]) = enumerate xs ++ [(length xs, x)].
Proof. unfold enumerate. by rewrite enumerate_from_snoc. Qed.

Lemma nonempty_snoc {A} (xs : list A) :
  xs ≠ [] → ∃ ys y, xs = ys ++ [y] ∧ last xs = Some y.
Proof.
  destruct xs as [|x xs _] using rev_ind; [done|]. intros _.
  exists xs, x. split; [done|]. apply last_snoc.
Qed.

Section PairLoopEnd.
Context {S A : Type}.
Variable body : nat → A → S → nat * A → result S.

(** The last step of the double loop is the body at the last pair. *)
Lemma pair_loop_last (xs : list A) (x : A) (s0 s' : S) :
  foldM (λ st '(c1, x1), foldM (body c1 x1) st (enumerate (xs ++ [x])))
        s0 (enumerate (xs ++ [x])) = Ok s' →
  ∃ s, body (length xs) x s (length xs, x) = Ok s'.
Proof.
  rewrite enumerate_snoc, foldM_app.
  intros (s1 & _ & Hlast)%bind_Ok. simpl in Hlast.
  apply bind_Ok in Hlast as (s2 & Hinner & [= <-]).
  rewrite foldM_app in Hinner.
  apply bind_Ok in Hinner as (s3 & _ & Hbody). simpl in Hbody.
  apply bind_Ok in Hbody as (s4 & Hbody & [= <-]). by exists s3.
Qed.

(** The double loop returns when its body returns under an invariant. *)
Lemma pair_loop_total (xs : list A) (I : S → Prop) (s0 : S) :
  I s0 →
  (∀ c1 x1 c2 x2 s, xs !! c1 = Some x1 → xs !! c2 = Some x2 → I s →
     ∃ s1, body c1 x1 s (c2, x2) = Ok s1 ∧ I s1) →
  ∃ s', foldM (λ st '(c1, x1), foldM (body c1 x1) st (enumerate xs))
              s0 (enumerate xs) = Ok s' ∧ I s'.
Proof.
  intros H0 Hbody.
  destruct (foldM_inv_total
    (λ st '(c1, x1), foldM (body c1 x1) st (enumerate xs))
    (λ _, I) (enumerate xs) s0) as (s' & Hrun & HI); [done| |by exists s'].
  intros i [c1 x1] s [-> Hx1]%lookup_enumerate HI.
  destruct (foldM_inv_total (body i x1) (λ _, I) (enumerate xs) s)
    as (s1 & Hrun & HI1); [done| |by exists s1].
  intros j [c2 x2] s2 [-> Hx2]%lookup_enumerate HI2.
  by apply Hbody.
Qed.

(** The double loop reads its body only at the pairs [c1 <= c2], when the
    body skips the others. *)
Lemma pair_loop_ext (body' : nat → A → S → nat * A → result S)
    (xs : list A) (s0 : S) :
  (∀ c1 x1 c2 x2 s, xs !! c1 = Some x1 → xs !! c2 = Some x2 →
     body c1 x1 s (c2, x2) = body' c1 x1 s (c2, x2)) →
  foldM (λ st '(c1, x1), foldM (body c1 x1) st (enumerate xs))
        s0 (enumerate xs)
  = foldM (λ st '(c1, x1), foldM (body' c1 x1) st (enumerate xs))
          s0 (enumerate xs).
Proof.
  intros Hbody. apply foldM_ext.
  intros i [c1 x1] s [-> Hx1]%lookup_enumerate.
  apply foldM_ext. intros j [c2 x2] s' [-> Hx2]%lookup_enumerate.
  by apply Hbody.
Qed.
End PairLoopEnd.

(** ** Broadcasting and assignment: when they return *)

Lemma broadcast_to_Ok len (v : array) :
  is_Ok (broadcast_to len v) ↔ length v = len ∨ length v = 1%nat.
Proof.
  unfold broadcast_to. repeat case_decide; split;
    try (intros [? [=]]); try (intros [?|?]); try lia; eauto; by eexists.
Qed.

Lemma setitem_Ok n d (a : tensor) c1 c2 start stop (v : array) :
  shaped n n d a → (c1 < n)%nat → (c2 < n)%nat →
  is_Ok (setitem a c1 c2 start stop v) ↔
  length v = (stop `min` d - start `min` d)%nat ∨ length v = 1%nat.
Proof.
  intros Hs Hc1 Hc2.
  destruct (shaped_fibre_is_Some n n d a c1 c2 Hs Hc1 Hc2) as [old Hold].
  assert (length old = d) as Hlen
    by by apply (shaped_fibre n n d) in Hold as (_ & _ & ?).
  rewrite <- broadcast_to_Ok. unfold setitem. rewrite Hold, Hlen.
  destruct (broadcast_to _ v) as [v'|e]; cbn [mbind result_bind]; split;
    intros [x Hx]; try done; by eexists.
Qed.

Lemma length_slice_to {A} (stop : Z) (xs : list A) :
  length (slice_to stop xs)
  = if decide (0 ≤ stop) then (Z.to_nat stop `min` length xs)%nat
    else (length xs - Z.to_nat (- stop))%nat.
Proof.
  unfold slice_to. case_decide; rewrite length_take; [done|lia].
Qed.

(** ** get_noise_matrix_spin0and2: shape, axis, lower triangle, files read,
       and when the call returns *)

Section NoiseMore.
Variable read_ps : string → list string → result (list ps_row).
Variables (noise_dir survey : string) (arrays : list string).
Variables (lmax nsplits : Z).

Local Abbreviation n := (length arrays).
Local Abbreviation d := (Z.to_nat lmax).
Local Abbreviation noise_shaped := (noise_shaped arrays lmax).
Local Abbreviation noise_loop := (λ read_ps st,
  foldM (λ st '(c1, ar1),
           foldM (noise_pair read_ps noise_dir survey lmax nsplits c1 ar1)
                 st (enumerate arrays))
        st (enumerate arrays)).

(** The steps of the function: the two tensors of zeros, the double loop,
    the two symmetrizations, the test that [l] is bound. *)
Lemma get_noise_matrix_steps (r : result (array * tensor * tensor)) :
  get_noise_matrix_spin0and2 read_ps noise_dir survey arrays lmax nsplits = r →
  (lmax < 0 ∧ r = Raise ValueError) ∨
  ∃ t0 p0, 0 ≤ lmax ∧ noise_shaped (None, t0, p0) ∧
    ((∃ e, noise_loop read_ps (None, t0, p0) = Raise e ∧ r = Raise e) ∨
     (∃ l1 t1 p1 T P,
        noise_loop read_ps (None, t0, p0) = Ok (l1, t1, p1) ∧
        symmetrize t1 lmax = Ok T ∧ symmetrize p1 lmax = Ok P ∧
        r = match l1 with
            | None => Raise UnboundLocalError
            | Some l => Ok (l, T, P)
            end)).
Proof.
  unfold get_noise_matrix_spin0and2. intros <-.
  destruct (np_zeros n n lmax) as [t0|e] eqn:Ht0.
  - right. apply np_zeros_spec in Ht0 as (Hlmax & Hs & _).
    exists t0, t0. split; [done|]. split; [done|].
    cbn [mbind result_bind].
    destruct (foldM _ _ _) as [[[l1 t1] p1]|e] eqn:Hloop; [right|left; eauto].
    destruct (symmetrize_total t1 lmax) as [T HT].
    destruct (symmetrize_total p1 lmax) as [P HP].
    exists l1, t1, p1, T, P. cbn [mbind result_bind]. rewrite HT, HP.
    cbn [mbind result_bind]. by destruct l1.
  - left. unfold np_zeros in Ht0. case_decide; [|done].
    injection Ht0 as <-. done.
Qed.

(** The body at a pair [c1 <= c2]: it returns when the table of the pair
    is read and fits, and then binds [l] to the truncated column. *)
Lemma noise_pair_Ok c1 ar1 c2 ar2 st st' :
  0 ≤ lmax → (c1 ≤ c2)%nat → (c2 < n)%nat → noise_shaped st →
  noise_pair read_ps noise_dir survey lmax nsplits c1 ar1 st (c2, ar2)
    = Ok st' →
  ∃ tbl, read_ps (noise_file noise_dir ar1 ar2 survey) spectra = Ok tbl ∧
    noise_table_fits lmax tbl ∧
    st'.1.1 = Some (slice_to lmax (ps_l tbl)).
Proof.
  intros Hlmax Hle Hc2 [Ht Hp].
  unfold noise_pair. destruct st as [[l0 t] p]. simpl in Ht, Hp.
  case_decide; [lia|].
  intros (tbl & Htbl & (t' & Hset_t & (p' & Hset_p & [= <-])%bind_Ok)%bind_Ok)%bind_Ok.
  exists tbl. split; [done|]. split; [|done].
  assert (is_Ok (setitem t c1 c2 0 d
    (div_a (mul_s (mul_s (mul_s (slice_to lmax (ps_nl tbl "TT"))
              (of_Z nsplits)) (of_Z 2)) np_pi)
       (mul_a (slice_to lmax (ps_l tbl))
              (add_s (slice_to lmax (ps_l tbl)) (of_Z 1)))))) as Hok
    by by eexists.
  apply (setitem_Ok n d) in Hok; [|done|lia|done].
  unfold ps_l, ps_nl in Hok. repeat rewrite slice_to_fmap in Hok.
  rewrite noise_rhs_length, length_slice_to in Hok.
  case_decide; [|lia]. unfold noise_table_fits. lia.
Qed.

Lemma noise_pair_total c1 ar1 c2 ar2 st tbl :
  0 ≤ lmax → (c1 ≤ c2)%nat → (c2 < n)%nat → noise_shaped st →
  read_ps (noise_file noise_dir ar1 ar2 survey) spectra = Ok tbl →
  noise_table_fits lmax tbl →
  ∃ st',
    noise_pair read_ps noise_dir survey lmax nsplits c1 ar1 st (c2, ar2)
      = Ok st' ∧ noise_shaped st'.
Proof.
  intros Hlmax Hle Hc2 [Ht Hp] Htbl Hfits.
  unfold noise_pair. destruct st as [[l0 t] p]. simpl in Ht, Hp.
  case_decide; [lia|]. rewrite Htbl. cbn [mbind result_bind].
  assert (∀ x : ps_row → npfloat,
    length (div_a (mul_s (mul_s (mul_s (x <$> slice_to lmax tbl)
                     (of_Z nsplits)) (of_Z 2)) np_pi)
              (mul_a (row_l <$> slice_to lmax tbl)
                     (add_s (row_l <$> slice_to lmax tbl) (of_Z 1))))
      = (d `min` d - 0 `min` d)%nat ∨
    length (div_a (mul_s (mul_s (mul_s (x <$> slice_to lmax tbl)
                     (of_Z nsplits)) (of_Z 2)) np_pi)
              (mul_a (row_l <$> slice_to lmax tbl)
                     (add_s (row_l <$> slice_to lmax tbl) (of_Z 1))))
      = 1%nat) as Hlen.
  { intros x. rewrite noise_rhs_length, length_slice_to.
    case_decide; [|lia]. unfold noise_table_fits in Hfits. lia. }
  unfold ps_l, ps_nl. repeat rewrite slice_to_fmap. rewrite average_rows.
  destruct (proj2 (setitem_Ok n d t c1 c2 0 d _ Ht ltac:(lia) Hc2)
              (Hlen (λ r, row_ps r "TT"))) as [t' Ht'].
  rewrite Ht'. cbn [mbind result_bind].
  destruct (proj2 (setitem_Ok n d p c1 c2 0 d _ Hp ltac:(lia) Hc2)
              (Hlen (λ r, average (row_ps r "EE") (row_ps r "BB"))))
    as [p' Hp'].
  rewrite Hp'. cbn [mbind result_bind].
  eexists. split; [done|]. split; simpl.
  - by destruct (setitem_spec n n d _ _ _ _ _ _ _ Ht Ht')
      as (? & ? & _ & _ & _ & _ & ?).
  - by destruct (setitem_spec n n d _ _ _ _ _ _ _ Hp Hp')
      as (? & ? & _ & _ & _ & _ & ?).
Qed.

(** The tables of the pairs [i <= j] of a returning loop are read and fit. *)
Lemma noise_loop_tables st0 st' :
  0 ≤ lmax → noise_shaped st0 →
  noise_loop read_ps st0 = Ok st' →
  ∀ i j ar1 ar2, (i ≤ j)%nat →
    arrays !! i = Some ar1 → arrays !! j = Some ar2 →
    ∃ tbl, read_ps (noise_file noise_dir ar1 ar2 survey) spectra = Ok tbl ∧
           noise_table_fits lmax tbl.
Proof.
  intros Hlmax Hs0 Hloop i j ar1 ar2 Hij Har1 Har2.
  destruct (pair_loop_inv
    (noise_pair read_ps noise_dir survey lmax nsplits) arrays noise_shaped
    (λ i j _, ∀ ar1 ar2, arrays !! i = Some ar1 → arrays !! j = Some ar2 →
       ∃ tbl, read_ps (noise_file noise_dir ar1 ar2 survey) spectra = Ok tbl ∧
              noise_table_fits lmax tbl)) with (s0 := st0) (s' := st')
    as [_ HQ]; try done.
  - intros. by apply noise_pair_skip.
  - intros c1 x1 c2 x2 s s1 Hx1 Hx2 Hle Hs Hrun.
    destruct (noise_pair_run read_ps noise_dir survey arrays lmax nsplits
                c1 x1 c2 x2 s s1 Hlmax Hx1 Hx2 Hle Hs Hrun) as (Hs1 & _ & _).
    split; [done|]. split; [|done].
    intros a1 a2 Ha1 Ha2.
    rewrite Hx1 in Ha1. rewrite Hx2 in Ha2.
    injection Ha1 as <-. injection Ha2 as <-.
    apply lookup_lt_Some in Hx2 as Hc2.
    apply (noise_pair_Ok c1 x1 c2 x2 s s1 Hlmax Hle Hc2 Hs) in Hrun
      as (tbl & Htbl & Hfits & _). by exists tbl.
  - apply (HQ i j); [|done..]. apply lookup_lt_Some in Har2. lia.
Qed.

(** X1. The function returns exactly when [lmax] is not negative, there is at
    least one array, and the table of every pair [i <= j] is read and
    fits. *)
Theorem noise_matrix_returns_iff :
  is_Ok (get_noise_matrix_spin0and2 read_ps noise_dir survey arrays
           lmax nsplits) ↔
  0 ≤ lmax ∧ arrays ≠ [] ∧
  ∀ i j ar1 ar2, (i ≤ j)%nat →
    arrays !! i = Some ar1 → arrays !! j = Some ar2 →
    ∃ tbl, read_ps (noise_file noise_dir ar1 ar2 survey) spectra = Ok tbl ∧
           noise_table_fits lmax tbl.
Proof.
  split.
  - intros [[[l T] P] Hrun].
    destruct (get_noise_matrix_steps _ Hrun)
      as [[_ [=]]|(t0 & p0 & Hlmax & Hs0 & [(e & _ & [=])|Hloop])].
    destruct Hloop as (l1 & t1 & p1 & T' & P' & Hloop & _ & _ & Hret).
    destruct l1 as [l1|]; [|done].
    split; [done|]. split.
    + intros Hnil. rewrite Hnil in Hloop. discriminate Hloop.
    + by apply (noise_loop_tables (None, t0, p0) (Some l1, t1, p1)).
  - intros (Hlmax & Hne & Htables).
    destruct (get_noise_matrix_steps _ eq_refl)
      as [[? _]|(t0 & p0 & _ & Hs0 & Hcases)]; [lia|].
    destruct (pair_loop_total
      (noise_pair read_ps noise_dir survey lmax nsplits) arrays
      noise_shaped (None, t0, p0) Hs0) as (st' & Hloop & Hs').
    { intros c1 x1 c2 x2 s Hx1 Hx2 Hs.
      destruct (decide (c2 < c1)%nat) as [Hlt|Hge].
      - exists s. split; [|done]. by apply noise_pair_skip.
      - destruct (Htables c1 c2 x1 x2) as (tbl & Htbl & Hfits);
          [lia|done..|].
        apply (noise_pair_total c1 x1 c2 x2 s tbl); try done; [lia|].
        by apply lookup_lt_Some in Hx2. }
    destruct Hcases as [(e & Hraise & _)|Hcases];
      [rewrite Hloop in Hraise; discriminate Hraise|].
    destruct Hcases as (l1 & t1 & p1 & T & P & Hloop' & _ & _ & ->).
    destruct (nonempty_snoc arrays Hne) as (ys & y & Hys & _).
    rewrite Hys in Hloop'.
    apply (pair_loop_last (noise_pair read_ps noise_dir survey lmax nsplits))
      in Hloop' as [[[l2 t2] p2] Hlast].
    unfold noise_pair in Hlast. case_decide; [lia|].
    apply bind_Ok in Hlast
      as (tbl & _ & (t' & _ & (p' & _ & [= <- _ _])%bind_Ok)%bind_Ok).
    by eexists.
Qed.
End NoiseMore.

Section NoiseFacts.
Variable read_ps : string → list string → result (list ps_row).
Variables (noise_dir survey : string) (arrays : list string).
Variables (lmax nsplits : Z).

Local Abbreviation n := (length arrays).
Local Abbreviation d := (Z.to_nat lmax).

(** X2. The returned tensors have the shape [(n_arrays, n_arrays, lmax)], and
    the returned axis has at most [lmax] items. *)
Theorem noise_matrix_shape (l : array) (T P : tensor) :
  get_noise_matrix_spin0and2 read_ps noise_dir survey arrays lmax nsplits
    = Ok (l, T, P) →
  shaped n n d T ∧ shaped n n d P ∧ (length l ≤ d)%nat.
Proof.
  intros Hrun.
  destruct (get_noise_matrix_steps _ _ _ _ _ _ _ Hrun)
    as [[_ [=]]|(t0 & p0 & Hlmax & Hs0 & [(e & _ & [=])|Hloop])].
  destruct Hloop as (l1 & t1 & p1 & T' & P' & Hloop & HT & HP & Hret).
  destruct l1 as [l1|]; [|done]. injection Hret as ? ? ?. subst.
  assert (∀ c1 x1 c2 x2 s s',
    arrays !! c1 = Some x1 → arrays !! c2 = Some x2 → (c1 ≤ c2)%nat →
    noise_shaped arrays lmax s ∧ (∀ l, s.1.1 = Some l → (length l ≤ d)%nat) →
    noise_pair read_ps noise_dir survey lmax nsplits c1 x1 s (c2, x2) = Ok s' →
    (noise_shaped arrays lmax s' ∧
     (∀ l, s'.1.1 = Some l → (length l ≤ d)%nat)) ∧
    True ∧ ∀ i j : nat, (i, j) ≠ (c1, c2) → True → True) as Hbody.
  { intros c1 x1 c2 x2 s s1 Hx1 Hx2 Hle [Hs _] Hpair.
    destruct (noise_pair_run read_ps noise_dir survey arrays lmax nsplits
                c1 x1 c2 x2 s s1 Hlmax Hx1 Hx2 Hle Hs Hpair) as (Hs1 & _ & _).
    apply lookup_lt_Some in Hx2 as Hc2.
    destruct (noise_pair_Ok read_ps noise_dir survey arrays lmax nsplits
                c1 x1 c2 x2 s s1 Hlmax Hle Hc2 Hs Hpair)
      as (tbl & _ & _ & Hl).
    split; [split; [done|]|done].
    intros l' Hl'. rewrite Hl in Hl'. injection Hl' as <-.
    by apply length_slice_to_le. }
  assert (noise_shaped arrays lmax (None : option array, t0, p0) ∧
          ∀ l, (None : option array, t0, p0).1.1 = Some l →
               (length l ≤ d)%nat) as HI0.
  { split; [done|]. intros l' Hl'. discriminate Hl'. }
  destruct (pair_loop_inv
    (noise_pair read_ps noise_dir survey lmax nsplits) arrays
    (λ st, noise_shaped arrays lmax st ∧
           ∀ l, st.1.1 = Some l → (length l ≤ d)%nat)
    (λ _ _ _, True)
    (noise_pair_skip read_ps noise_dir survey lmax nsplits) Hbody
    _ _ HI0 Hloop)
    as [[[Ht1 Hp1] Hl1] _].
  simpl in Ht1, Hp1.
  destruct (symmetrize_spec n _ _ lmax Ht1 HT) as [HsT _].
  destruct (symmetrize_spec n _ _ lmax Hp1 HP) as [HsP _].
  split; [done|]. split; [done|]. by apply Hl1.
Qed.

(** X3. The returned axis is the multipole column of the last pair read, the
    last array with itself, cut at [lmax]. *)
Theorem noise_matrix_axis (l : array) (T P : tensor) :
  get_noise_matrix_spin0and2 read_ps noise_dir survey arrays lmax nsplits
    = Ok (l, T, P) →
  ∃ ar tbl, last arrays = Some ar ∧
    read_ps (noise_file noise_dir ar ar survey) spectra = Ok tbl ∧
    l = slice_to lmax (ps_l tbl).
Proof.
  intros Hrun.
  destruct (get_noise_matrix_steps _ _ _ _ _ _ _ Hrun)
    as [[_ [=]]|(t0 & p0 & Hlmax & Hs0 & [(e & _ & [=])|Hloop])].
  destruct Hloop as (l1 & t1 & p1 & T' & P' & Hloop & _ & _ & Hret).
  destruct l1 as [l1|]; [|done]. injection Hret as ? _ _. subst.
  assert (arrays ≠ []) as Hne.
  { intros Hnil. rewrite Hnil in Hloop. discriminate Hloop. }
  destruct (nonempty_snoc arrays Hne) as (ys & y & Hys & Hlast).
  rewrite Hys in Hloop.
  apply (pair_loop_last (noise_pair read_ps noise_dir survey lmax nsplits))
    in Hloop as [[[l2 t2] p2] Hbody].
  unfold noise_pair in Hbody. case_decide; [lia|].
  apply bind_Ok in Hbody
    as (tbl & Htbl & (t' & _ & (p' & _ & [= Hl _ _])%bind_Ok)%bind_Ok).
  by exists y, tbl.
Qed.

(** X4. Below the diagonal the tensors hold the spectra of the pair taken in
    the order of the list: for [i <= j] the entries [[j, i, k]] are those
    computed from the file of [(arrays[i], arrays[j])]; no file
    [arrays[j] x arrays[i]] is involved. *)
Theorem noise_matrix_lower (l : array) (T P : tensor) i j ar1 ar2 :
  get_noise_matrix_spin0and2 read_ps noise_dir survey arrays lmax nsplits
    = Ok (l, T, P) →
  (i ≤ j)%nat → arrays !! i = Some ar1 → arrays !! j = Some ar2 →
  ∃ tbl, read_ps (noise_file noise_dir ar1 ar2 survey) spectra = Ok tbl ∧
    ∀ k r, slice_to lmax tbl !! k = Some r →
      entry T j i k = Some (rescaled (row_ps r "TT") nsplits (row_l r)) ∧
      entry P j i k
        = Some (rescaled (average (row_ps r "EE") (row_ps r "BB"))
                         nsplits (row_l r)).
Proof.
  intros Hrun Hij Har1 Har2.
  destruct (noise_matrix_upper read_ps noise_dir survey arrays lmax nsplits
              l T P i j ar1 ar2 Hrun Hij Har1 Har2) as (tbl & Htbl & He).
  exists tbl. split; [done|]. intros k r Hr.
  destruct (noise_matrix_symmetric read_ps noise_dir survey arrays lmax
              nsplits l T P Hrun j i k) as [-> ->].
  by apply He.
Qed.

(** X5. Only the files of the pairs [i <= j] are read: two readers that agree
    on them give the same result, tensors or exception. *)
Theorem noise_matrix_reads_upper_pairs
    (read_ps' : string → list string → result (list ps_row)) :
  (∀ i j ar1 ar2, (i ≤ j)%nat →
     arrays !! i = Some ar1 → arrays !! j = Some ar2 →
     read_ps (noise_file noise_dir ar1 ar2 survey) spectra
     = read_ps' (noise_file noise_dir ar1 ar2 survey) spectra) →
  get_noise_matrix_spin0and2 read_ps noise_dir survey arrays lmax nsplits
  = get_noise_matrix_spin0and2 read_ps' noise_dir survey arrays lmax nsplits.
Proof.
  intros Hagree. unfold get_noise_matrix_spin0and2.
  destruct (np_zeros n n lmax) as [t0|e]; [|done].
  cbn [mbind result_bind].
  rewrite (pair_loop_ext
    (noise_pair read_ps noise_dir survey lmax nsplits)
    (noise_pair read_ps' noise_dir survey lmax nsplits)); [done|].
  intros c1 x1 c2 x2 [[l0 t] p] Hx1 Hx2. unfold noise_pair.
  case_decide; [done|]. rewrite (Hagree c1 c2) by (done || lia). done.
Qed.
End NoiseFacts.

(** ** get_foreground_matrix: shape, axis, lower triangle, files read, and
       when the call returns *)

Section ForegroundMore.
Variable loadtxt : string → result (list (npfloat * npfloat)).
Variables (fg_dir : string) (all_freqs : list string) (lmax : Z).

Local Abbreviation n := (length all_freqs).
Local Abbreviation d := (Z.to_nat lmax).
Local Abbreviation fg_shaped := (λ st : option array * tensor,
  shaped n n d st.2).
Local Abbreviation fg_loop := (λ st,
  foldM (λ st '(c1, freq1),
           foldM (fg_pair loadtxt fg_dir lmax c1 freq1) st
                 (enumerate all_freqs))
        st (enumerate all_freqs)).

Lemma get_foreground_matrix_steps (r : result (array * tensor)) :
  get_foreground_matrix loadtxt fg_dir all_freqs lmax = r →
  (lmax < 0 ∧ r = Raise ValueError) ∨
  ∃ t0, 0 ≤ lmax ∧ shaped n n d t0 ∧
    ((∃ e, fg_loop (None, t0) = Raise e ∧ r = Raise e) ∨
     (∃ l1 t1 F,
        fg_loop (None, t0) = Ok (l1, t1) ∧ symmetrize t1 lmax = Ok F ∧
        r = match l1 with
            | None => Raise UnboundLocalError
            | Some l => Ok (l, F)
            end)).
Proof.
  unfold get_foreground_matrix. intros <-.
  destruct (np_zeros n n lmax) as [t0|e] eqn:Ht0.
  - right. apply np_zeros_spec in Ht0 as (Hlmax & Hs & _).
    exists t0. split; [done|]. split; [done|].
    cbn [mbind result_bind].
    destruct (foldM _ _ _) as [[l1 t1]|e] eqn:Hloop; [right|left; eauto].
    destruct (symmetrize_total t1 lmax) as [F HF].
    exists l1, t1, F. cbn [mbind result_bind]. rewrite HF.
    cbn [mbind result_bind]. by destruct l1.
  - left. unfold np_zeros in Ht0. case_decide; [|done].
    injection Ht0 as <-. done.
Qed.

(** The length of the value assigned to the slice [2:lmax], against the
    length of that slice. *)
Lemma fg_value_fits (rows : list (npfloat * npfloat)) :
  0 ≤ lmax → (2 ≤ length rows)%nat →
  (length (slice_to (lmax - 2)
     (mul_a rows.*2 (s_div (np_mul (of_Z 2) np_pi)
        (mul_a rows.*1 (add_s rows.*1 (of_Z 1))))))
     = (d `min` d - 2 `min` d)%nat ∨
   length (slice_to (lmax - 2)
     (mul_a rows.*2 (s_div (np_mul (of_Z 2) np_pi)
        (mul_a rows.*1 (add_s rows.*1 (of_Z 1))))))
     = 1%nat) ↔
  fg_table_fits lmax rows.
Proof.
  intros Hlmax Hrows. rewrite length_slice_to, fg_rhs_length.
  unfold fg_table_fits. case_decide; lia.
Qed.

Lemma fg_pair_Ok c1 f1 c2 f2 st st' :
  0 ≤ lmax → (c1 ≤ c2)%nat → (c2 < n)%nat → fg_shaped st →
  fg_pair loadtxt fg_dir lmax c1 f1 st (c2, f2) = Ok st' →
  ∃ rows, loadtxt (fg_file fg_dir f1 f2) = Ok rows ∧
    fg_table_fits lmax rows ∧ st'.1 = Some rows.*1 ∧ fg_shaped st'.
Proof.
  intros Hlmax Hle Hc2 Hs.
  unfold fg_pair. destruct st as [l0 t]. simpl in Hs.
  case_decide; [lia|].
  intros (rows & Hrows & ([l fl] & Hun & (t' & Hset & [= <-])%bind_Ok)%bind_Ok)%bind_Ok.
  apply unpack_Ok in Hun as (-> & -> & Hlen).
  exists rows. split; [done|]. split; [|split; [done|]].
  - apply fg_value_fits; [done..|].
    apply (setitem_Ok n d t c1 c2 2 d); [done|lia|done|by eexists].
  - by destruct (setitem_spec n n d _ _ _ _ _ _ _ Hs Hset)
      as (? & ? & _ & _ & _ & _ & ?).
Qed.

Lemma fg_pair_total c1 f1 c2 f2 st rows :
  0 ≤ lmax → (c1 ≤ c2)%nat → (c2 < n)%nat → fg_shaped st →
  loadtxt (fg_file fg_dir f1 f2) = Ok rows → fg_table_fits lmax rows →
  ∃ st', fg_pair loadtxt fg_dir lmax c1 f1 st (c2, f2) = Ok st' ∧
         fg_shaped st'.
Proof.
  intros Hlmax Hle Hc2 Hs Hrows Hfits.
  unfold fg_pair. destruct st as [l0 t]. simpl in Hs.
  case_decide; [lia|]. rewrite Hrows. cbn [mbind result_bind].
  assert (2 ≤ length rows)%nat as Hlen by apply Hfits.
  assert (unpack rows = Ok (rows.*1, rows.*2)) as ->.
  { destruct rows as [|r1 [|r2 rows]]; simpl in *; done || lia. }
  cbn [mbind result_bind].
  destruct (proj2 (setitem_Ok n d t c1 c2 2 d _ Hs ltac:(lia) Hc2)
              (proj2 (fg_value_fits rows Hlmax Hlen) Hfits)) as [t' Ht'].
  rewrite Ht'. cbn [mbind result_bind].
  eexists. split; [done|]. simpl.
  by destruct (setitem_spec n n d _ _ _ _ _ _ _ Hs Ht')
    as (? & ? & _ & _ & _ & _ & ?).
Qed.

Lemma fg_pair_shaped c1 f1 c2 f2 st st' :
  0 ≤ lmax → all_freqs !! c2 = Some f2 → fg_shaped st →
  fg_pair loadtxt fg_dir lmax c1 f1 st (c2, f2) = Ok st' → fg_shaped st'.
Proof.
  intros Hlmax Hf2 Hs Hrun.
  destruct (decide (c2 < c1)%nat) as [Hlt|Hge].
  - rewrite fg_pair_skip in Hrun by done. by injection Hrun as <-.
  - apply lookup_lt_Some in Hf2.
    by destruct (fg_pair_Ok c1 f1 c2 f2 st st' Hlmax ltac:(lia) Hf2 Hs Hrun)
      as (? & _ & _ & _ & ?).
Qed.

(** X6. The function returns exactly when [lmax] is not negative, there is at
    least one frequency, and the table of every pair [i <= j] is read and
    fits. *)
Theorem foreground_matrix_returns_iff :
  is_Ok (get_foreground_matrix loadtxt fg_dir all_freqs lmax) ↔
  0 ≤ lmax ∧ all_freqs ≠ [] ∧
  ∀ i j f1 f2, (i ≤ j)%nat →
    all_freqs !! i = Some f1 → all_freqs !! j = Some f2 →
    ∃ rows, loadtxt (fg_file fg_dir f1 f2) = Ok rows ∧
            fg_table_fits lmax rows.
Proof.
  split.
  - intros [[l F] Hrun].
    destruct (get_foreground_matrix_steps _ Hrun)
      as [[_ [=]]|(t0 & Hlmax & Hs0 & [(e & _ & [=])|Hloop])].
    destruct Hloop as (l1 & t1 & F' & Hloop & _ & Hret).
    destruct l1 as [l1|]; [|done].
    split; [done|]. split.
    + intros Hnil. rewrite Hnil in Hloop. discriminate Hloop.
    + intros i j f1 f2 Hij Hf1 Hf2.
      destruct (pair_loop_inv (fg_pair loadtxt fg_dir lmax) all_freqs
        fg_shaped
        (λ i j _, ∀ f1 f2, all_freqs !! i = Some f1 →
           all_freqs !! j = Some f2 →
           ∃ rows, loadtxt (fg_file fg_dir f1 f2) = Ok rows ∧
                   fg_table_fits lmax rows))
        with (s0 := (None : option array, t0)) (s' := (Some l1, t1))
        as [_ HQ]; try done.
      * intros. by apply fg_pair_skip.
      * intros c1 x1 c2 x2 s s1 Hx1 Hx2 Hle Hs Hpair.
        apply lookup_lt_Some in Hx2 as Hc2.
        destruct (fg_pair_Ok c1 x1 c2 x2 s s1 Hlmax Hle Hc2 Hs Hpair)
          as (rows & Hrows & Hfits & _ & Hs1).
        split; [done|]. split; [|done].
        intros g1 g2 Hg1 Hg2. rewrite Hx1 in Hg1. rewrite Hx2 in Hg2.
        injection Hg1 as <-. injection Hg2 as <-. by exists rows.
      * apply (HQ i j); [|done..]. apply lookup_lt_Some in Hf2. lia.
  - intros (Hlmax & Hne & Htables).
    destruct (get_foreground_matrix_steps _ eq_refl)
      as [[? _]|(t0 & _ & Hs0 & Hcases)]; [lia|].
    destruct (pair_loop_total (fg_pair loadtxt fg_dir lmax) all_freqs
      fg_shaped (None, t0) Hs0) as (st' & Hloop & Hs').
    { intros c1 x1 c2 x2 s Hx1 Hx2 Hs.
      destruct (decide (c2 < c1)%nat) as [Hlt|Hge].
      - exists s. split; [|done]. by apply fg_pair_skip.
      - destruct (Htables c1 c2 x1 x2) as (rows & Hrows & Hfits);
          [lia|done..|].
        apply (fg_pair_total c1 x1 c2 x2 s rows); try done; [lia|].
        by apply lookup_lt_Some in Hx2. }
    destruct Hcases as [(e & Hraise & _)|Hcases];
      [rewrite Hloop in Hraise; discriminate Hraise|].
    destruct Hcases as (l1 & t1 & F & Hloop' & _ & ->).
    destruct (nonempty_snoc all_freqs Hne) as (ys & y & Hys & _).
    rewrite Hys in Hloop'.
    apply (pair_loop_last (fg_pair loadtxt fg_dir lmax))
      in Hloop' as [[l2 t2] Hlast].
    unfold fg_pair in Hlast. case_decide; [lia|].
    apply bind_Ok in Hlast
      as (rows & _ & ([l fl] & _ & (t' & _ & [= <- _])%bind_Ok)%bind_Ok).
    by eexists.
Qed.

(** X7. The returned tensor has the shape [(nfreqs, nfreqs, lmax)]. *)
Theorem foreground_matrix_shape (l : array) (F : tensor) :
  get_foreground_matrix loadtxt fg_dir all_freqs lmax = Ok (l, F) →
  shaped n n d F.
Proof.
  intros (st & Hlmax & _ & (Hs & _) & _ & HF)%get_foreground_matrix_run.
  by destruct (symmetrize_spec n _ _ lmax Hs HF).
Qed.

(** X8. The returned axis is the whole multipole column of the last table
    read, the last frequency with itself: it has as many items as that
    file has lines, whatever [lmax]. *)
Theorem foreground_matrix_last_axis (l : array) (F : tensor) :
  get_foreground_matrix loadtxt fg_dir all_freqs lmax = Ok (l, F) →
  ∃ f rows, last all_freqs = Some f ∧
    loadtxt (fg_file fg_dir f f) = Ok rows ∧
    l = rows.*1 ∧ length l = length rows.
Proof.
  intros Hrun.
  destruct (get_foreground_matrix_steps _ Hrun)
    as [[_ [=]]|(t0 & Hlmax & Hs0 & [(e & _ & [=])|Hloop])].
  destruct Hloop as (l1 & t1 & F' & Hloop & _ & Hret).
  destruct l1 as [l1|]; [|done]. injection Hret as ? _. subst.
  assert (all_freqs ≠ []) as Hne.
  { intros Hnil. rewrite Hnil in Hloop. discriminate Hloop. }
  destruct (nonempty_snoc all_freqs Hne) as (ys & y & Hys & Hlast).
  rewrite Hys in Hloop.
  apply (pair_loop_last (fg_pair loadtxt fg_dir lmax))
    in Hloop as [[l2 t2] Hbody].
  unfold fg_pair in Hbody. case_decide; [lia|].
  apply bind_Ok in Hbody
    as (rows & Hrows & ([l' fl] & Hun & (t' & _ & [= Hl _])%bind_Ok)%bind_Ok).
  apply unpack_Ok in Hun as (-> & _ & _).
  exists y, rows. repeat (split; [done|]). by rewrite <- Hl, length_fmap.
Qed.

(** X9. Below the diagonal the tensor holds the table of the pair taken in
    the order of the list: for [i <= j] and [2 <= k < lmax] the entry
    [[j, i, k]] is line [k - 2] of the file of
    [(all_freqs[i], all_freqs[j])], rescaled. *)
Theorem foreground_matrix_lower (l : array) (F : tensor) i j f1 f2 k :
  get_foreground_matrix loadtxt fg_dir all_freqs lmax = Ok (l, F) →
  (i ≤ j)%nat → all_freqs !! i = Some f1 → all_freqs !! j = Some f2 →
  (2 ≤ k)%nat → Z.of_nat k < lmax →
  ∃ rows lk fk,
    loadtxt (fg_file fg_dir f1 f2) = Ok rows ∧
    rows !! (k - 2)%nat = Some (lk, fk) ∧
    entry F j i k = Some (fg_rescaled fk lk).
Proof.
  intros Hrun Hij Hf1 Hf2 Hk2 Hk.
  destruct (foreground_matrix_upper loadtxt fg_dir all_freqs lmax l F
              i j f1 f2 k Hrun Hij Hf1 Hf2 Hk2 Hk)
    as (rows & lk & fk & Hrows & Hr & He).
  exists rows, lk, fk. repeat (split; [done|]).
  by rewrite (foreground_matrix_symmetric loadtxt fg_dir all_freqs lmax
                l F Hrun j i k).
Qed.
End ForegroundMore.

(** X10. Only the files of the pairs [i <= j] are read: two loaders that agree
    on them give the same result, tensor or exception. *)
Theorem foreground_matrix_reads_upper_pairs
    (loadtxt loadtxt' : string → result (list (npfloat * npfloat)))
    (fg_dir : string) (all_freqs : list string) (lmax : Z) :
  (∀ i j f1 f2, (i ≤ j)%nat →
     all_freqs !! i = Some f1 → all_freqs !! j = Some f2 →
     loadtxt (fg_file fg_dir f1 f2) = loadtxt' (fg_file fg_dir f1 f2)) →
  get_foreground_matrix loadtxt fg_dir all_freqs lmax
  = get_foreground_matrix loadtxt' fg_dir all_freqs lmax.
Proof.
  intros Hagree. unfold get_foreground_matrix.
  destruct (np_zeros _ _ lmax) as [t0|e]; [|done].
  cbn [mbind result_bind].
  rewrite (pair_loop_ext (fg_pair loadtxt fg_dir lmax)
                         (fg_pair loadtxt' fg_dir lmax)); [done|].
  intros c1 x1 c2 x2 [l0 t] Hx1 Hx2. unfold fg_pair.
  case_decide; [done|]. rewrite (Hagree c1 c2) by (done || lia). done.
Qed.

(** ** generate_noise_alms: the draws in their order *)

Lemma store_cons {Alm} (m : gmap key Alm) k a kas :
  store m ((k, a) :: kas) = store (<[k := a]> m) kas.
Proof. done. Qed.

Lemma store_lookup_notin {Alm} (m : gmap key Alm) kas k :
  k ∉ kas.*1 → store m kas !! k = m !! k.
Proof.
  revert m. induction kas as [|[k' a'] kas IH]; intros m Hk; [done|].
  rewrite fmap_cons, not_elem_of_cons in Hk. destruct Hk as [Hne Hk].
  rewrite store_cons, IH by done. apply lookup_insert_ne. by intros ->.
Qed.

(** Among distinct keys, each key reads the value stored with it. *)
Lemma store_lookup {Alm} (m : gmap key Alm) (ks : list key) (alms : list Alm)
    i k a :
  NoDup ks → ks !! i = Some k → alms !! i = Some a →
  store m (zip ks alms) !! k = Some a.
Proof.
  revert m alms i. induction ks as [|k0 ks IH]; intros m alms i Hnd Hk Ha;
    [done|].
  destruct alms as [|a0 alms]; [done|].
  apply NoDup_cons in Hnd as [Hk0 Hnd].
  change (zip (k0 :: ks) (a0 :: alms)) with ((k0, a0) :: zip ks alms).
  rewrite store_cons.
  destruct i as [|i]; simpl in Hk, Ha.
  - injection Hk as <-. injection Ha as <-.
    rewrite store_lookup_notin; [apply lookup_insert_eq|].
    intros Hin. apply Hk0.
    apply list_elem_of_fmap in Hin as ([k1 a1] & -> & Hin).
    apply elem_of_zip_l in Hin. done.
  - by apply (IH _ _ i).
Qed.

Section Draws.
Context {Rng Alm : Type}.
Variable rand_alm : option tensor → Z → dtype → Rng → result (Alm * Rng).
Variables (nl_array_t : tensor) (lmax : Z) (dt : dtype).

Local Abbreviation draws := (draw_seq rand_alm lmax dt).

(** The temperature-only loop is the sequence of its draws, then the
    stores. *)
Lemma split_loop_draws (ks : list nat) (m : gmap key Alm) (g : Rng) :
  foldM (λ st k, draw rand_alm (Some nl_array_t) lmax dt (KSplit k) st)
        (m, g) ks
  = '(alms, g') ← draws (replicate (length ks) (Some nl_array_t)) g;
    Ok (store m (zip (KSplit <$> ks) alms), g').
Proof.
  revert m g. induction ks as [|k ks IH]; intros m g; [done|].
  cbn [foldM length replicate draw_seq draw].
  destruct (rand_alm (Some nl_array_t) lmax dt g) as [[a g1]|e];
    cbn [mbind result_bind]; [|done].
  rewrite IH.
  destruct (draws (replicate (length ks) (Some nl_array_t)) g1)
    as [[alms g2]|e]; cbn [mbind result_bind]; done.
Qed.

(** The three-component loop is the sequence of its draws, ["T"], ["E"],
    ["B"] for each split in turn, then the stores. *)
Lemma comp_loop_draws (pol : option tensor) (ks : list nat)
    (m : gmap key Alm) (g : Rng) :
  foldM (λ st k,
           st ← draw rand_alm (Some nl_array_t) lmax dt (KComp "T" k) st;
           st ← draw rand_alm pol lmax dt (KComp "E" k) st;
           draw rand_alm pol lmax dt (KComp "B" k) st)
        (m, g) ks
  = '(alms, g') ← draws (_ ← ks; [Some nl_array_t; pol; pol]) g;
    Ok (store m (zip (k ← ks; [KComp "T" k; KComp "E" k; KComp "B" k]) alms),
        g').
Proof.
  revert m g. induction ks as [|k ks IH]; intros m g; [done|].
  cbn [foldM mbind list_bind app draw_seq draw].
  destruct (rand_alm (Some nl_array_t) lmax dt g) as [[aT g1]|e];
    cbn [draw mbind result_bind]; [|done].
  destruct (rand_alm pol lmax dt g1) as [[aE g2]|e];
    cbn [draw mbind result_bind]; [|done].
  destruct (rand_alm pol lmax dt g2) as [[aB g3]|e];
    cbn [draw mbind result_bind]; [|done].
  rewrite IH.
  destruct (draws (_ ← ks; [Some nl_array_t; pol; pol]) g3)
    as [[alms g4]|e]; cbn [mbind result_bind]; done.
Qed.
End Draws.

Lemma NoDup_split_keys (n_splits : Z) : NoDup (KSplit <$> range n_splits).
Proof.
  apply NoDup_fmap_2; [by intros k1 k2 [=]|]. apply NoDup_seq.
Qed.

Lemma NoDup_comp_keys (n_splits : Z) : NoDup (comp_keys n_splits).
Proof.
  unfold comp_keys. apply NoDup_bind; [| |apply NoDup_seq].
  - intros k1 k2 y _ _ H1 H2.
    rewrite !elem_of_cons, elem_of_nil in H1, H2.
    destruct H1 as [->|[->|[->|[]]]], H2 as [[=]|[[=]|[[=]|[]]]]; done.
  - intros k _. apply NoDup_cons. split.
    { rewrite !elem_of_cons, elem_of_nil. by intros [[=]|[[=]|[]]]. }
    apply NoDup_cons. split.
    { rewrite !elem_of_cons, elem_of_nil. by intros [[=]|[]]. }
    apply NoDup_singleton.
Qed.

Lemma lookup_bind_triple {A B} (f : A → list B) (xs : list A) i r x :
  (∀ y, length (f y) = 3%nat) → xs !! i = Some x → (r < 3)%nat →
  (xs ≫= f) !! (3 * i + r)%nat = f x !! r.
Proof.
  intros Hlen. revert i. induction xs as [|y xs IH]; intros i Hi Hr; [done|].
  cbn [mbind list_bind]. destruct i as [|i]; simpl in Hi.
  - injection Hi as ->. rewrite lookup_app_l by (rewrite Hlen; lia).
    by rewrite Nat.mul_0_r.
  - rewrite lookup_app_r by (rewrite Hlen; lia). rewrite Hlen.
    replace (3 * Datatypes.S i + r - 3)%nat with (3 * i + r)%nat by lia.
    by apply IH.
Qed.

Lemma comp_keys_lookup (n_splits : Z) (k r : nat) :
  Z.of_nat k < n_splits → (r < 3)%nat →
  comp_keys n_splits !! (3 * k + r)%nat
  = [KComp "T" k; KComp "E" k; KComp "B" k] !! r.
Proof.
  intros Hk Hr. unfold comp_keys.
  apply (lookup_bind_triple
    (λ k, [KComp "T" k; KComp "E" k; KComp "B" k])); [done| |done].
  by apply lookup_range.
Qed.

(** X11. Without a split to draw ([n_splits <= 0]) the function returns the
    empty dictionary and leaves the random source as it was, whatever
    [ncomp] and [nl_array_pol]. *)
Theorem generate_noise_alms_no_split {Rng Alm : Type}
    (rand_alm : option tensor → Z → dtype → Rng → result (Alm * Rng))
    (nl_array_t : tensor) (lmax n_splits ncomp : Z)
    (nl_array_pol : option tensor) (dt : dtype) (g : Rng) :
  n_splits ≤ 0 →
  generate_noise_alms rand_alm nl_array_t lmax n_splits ncomp nl_array_pol
    dt g = Ok (∅, g).
Proof.
  intros Hn. unfold generate_noise_alms, range.
  replace (Z.to_nat n_splits) with 0%nat by lia. by case_decide.
Qed.

Lemma generate_noise_alms_no_split_witness :
  generate_noise_alms counting_rand_alm [] 10 (-1) 3 None complex128 7%nat
  = Ok (∅, 7%nat).
Proof.
  apply (generate_noise_alms_no_split counting_rand_alm [] 10 (-1) 3 None
           complex128 7%nat). lia.
Defined.

(** X12. With [ncomp == 1] the call is the sequence of [n_splits] draws on
    [nl_array_t], each from the state the previous one left, then the
    stores: it raises as the first draw that raises, and otherwise returns
    the state after the last draw and a dictionary in which the split [k]
    holds the draw of rank [k]. *)
Theorem generate_noise_alms_split_draws {Rng Alm : Type}
    (rand_alm : option tensor → Z → dtype → Rng → result (Alm * Rng))
    (nl_array_t : tensor) (lmax n_splits : Z)
    (nl_array_pol : option tensor) (dt : dtype) (g : Rng) :
  generate_noise_alms rand_alm nl_array_t lmax n_splits 1 nl_array_pol dt g
  = ('(alms, g') ← draw_seq rand_alm lmax dt
                     (replicate (Z.to_nat n_splits) (Some nl_array_t)) g;
     Ok (store ∅ (zip (KSplit <$> range n_splits) alms), g')) ∧
  ∀ (alms : list Alm) k a,
    Z.of_nat k < n_splits → alms !! k = Some a →
    store ∅ (zip (KSplit <$> range n_splits) alms) !! KSplit k = Some a.
Proof.
  split.
  - unfold generate_noise_alms. case_decide; [|done].
    rewrite split_loop_draws. by rewrite length_range.
  - intros alms k a Hk Ha.
    apply (store_lookup ∅ _ alms k); [apply NoDup_split_keys| |done].
    rewrite list_lookup_fmap.
    by rewrite (proj2 (lookup_range n_splits k k) (conj eq_refl Hk)).
Qed.

(** X13. With any [ncomp] other than 1 the call is the sequence of
    [3 * n_splits] draws, for each split in turn one on [nl_array_t] and
    two on [nl_array_pol], then the stores: it raises as the first draw
    that raises, and otherwise the keys [("T", k)], [("E", k)],
    [("B", k)] hold the draws of rank [3k], [3k + 1], [3k + 2]. *)
Theorem generate_noise_alms_comp_draws {Rng Alm : Type}
    (rand_alm : option tensor → Z → dtype → Rng → result (Alm * Rng))
    (nl_array_t : tensor) (lmax n_splits ncomp : Z)
    (nl_array_pol : option tensor) (dt : dtype) (g : Rng) :
  ncomp ≠ 1 →
  generate_noise_alms rand_alm nl_array_t lmax n_splits ncomp nl_array_pol
    dt g
  = ('(alms, g') ← draw_seq rand_alm lmax dt
                     (comp_spectra nl_array_t nl_array_pol n_splits) g;
     Ok (store ∅ (zip (comp_keys n_splits) alms), g')) ∧
  ∀ (alms : list Alm) k r c a,
    Z.of_nat k < n_splits → ["T"; "E"; "B"] !! r = Some c →
    alms !! (3 * k + r)%nat = Some a →
    store ∅ (zip (comp_keys n_splits) alms) !! KComp c k = Some a.
Proof.
  intros Hncomp. split.
  - unfold generate_noise_alms. case_decide; [done|].
    by rewrite comp_loop_draws.
  - intros alms k r c a Hk Hc Ha.
    apply (store_lookup ∅ _ alms (3 * k + r)%nat);
      [apply NoDup_comp_keys| |done].
    apply lookup_lt_Some in Hc as Hr. simpl in Hr.
    rewrite comp_keys_lookup by done.
    do 3 (destruct r as [|r]; [by injection Hc as <-|]). simpl in Hr. lia.
Qed.

Lemma generate_noise_alms_comp_draws_witness :
  generate_noise_alms counting_rand_alm [] 10 2 0 (Some []) complex128 0%nat
  = Ok (two_splits_TEB, 6%nat) ∧
  store ∅ (zip (comp_keys 2)
              [0%nat; 1%nat; 2%nat; 3%nat; 4%nat; 5%nat]) !! KComp "E" 1
  = Some 4%nat.
Proof.
  destruct (generate_noise_alms_comp_draws counting_rand_alm [] 10 2 0
              (Some []) complex128 0%nat) as [Heq Hlook]; [lia|].
  split.
  - rewrite Heq. vm_compute. reflexivity.
  - apply (Hlook _ 1%nat 1%nat "E" 4%nat); [lia|reflexivity|reflexivity].
Defined.

(** ** The further properties on the example tables *)

Lemma noise_matrix_shape_witness :
  ∃ l T P,
    get_noise_matrix_spin0and2 (read_ps_in noise_dir_from2)
      "noise" "dr6" ["pa1"; "pa2"] 3 2 = Ok (l, T, P) ∧
    shaped 2 2 3 T ∧ shaped 2 2 3 P ∧ (length l ≤ 3)%nat.
Proof.
  eexists _, _, _. split; [vm_compute; reflexivity|].
  apply (noise_matrix_shape (read_ps_in noise_dir_from2)
           "noise" "dr6" ["pa1"; "pa2"] 3 2).
  vm_compute; reflexivity.
Defined.

Lemma noise_matrix_axis_witness :
  ∃ l T P,
    get_noise_matrix_spin0and2 (read_ps_in noise_dir_from2)
      "noise" "dr6" ["pa1"; "pa2"] 3 2 = Ok (l, T, P) ∧
    ∃ ar tbl, last ["pa1"; "pa2"] = Some ar ∧
      read_ps_in noise_dir_from2 (noise_file "noise" ar ar "dr6") spectra
        = Ok tbl ∧
      l = slice_to 3 (ps_l tbl).
Proof.
  eexists _, _, _. split; [vm_compute; reflexivity|].
  eapply (noise_matrix_axis (read_ps_in noise_dir_from2)
            "noise" "dr6" ["pa1"; "pa2"] 3 2).
  vm_compute; reflexivity.
Defined.

Lemma noise_matrix_lower_witness :
  ∃ l T P,
    get_noise_matrix_spin0and2 (read_ps_in noise_dir_from2)
      "noise" "dr6" ["pa1"; "pa2"] 3 2 = Ok (l, T, P) ∧
    ∃ tbl, read_ps_in noise_dir_from2
             (noise_file "noise" "pa1" "pa2" "dr6") spectra = Ok tbl ∧
      ∀ k r, slice_to 3 tbl !! k = Some r →
        entry T 1 0 k = Some (rescaled (row_ps r "TT") 2 (row_l r)) ∧
        entry P 1 0 k
          = Some (rescaled (average (row_ps r "EE") (row_ps r "BB"))
                           2 (row_l r)).
Proof.
  eexists _, _, _. split; [vm_compute; reflexivity|].
  eapply (noise_matrix_lower (read_ps_in noise_dir_from2)
            "noise" "dr6" ["pa1"; "pa2"] 3 2 _ _ _ 0 1 "pa1" "pa2");
    [vm_compute; reflexivity | lia | reflexivity | reflexivity].
Defined.

Lemma noise_matrix_reads_upper_pairs_witness :
  read_ps_in noise_dir_from2 "noise/mean_pa2xpa1_dr6_noise.dat" spectra
    ≠ read_ps_in noise_dir_extra "noise/mean_pa2xpa1_dr6_noise.dat" spectra ∧
  get_noise_matrix_spin0and2 (read_ps_in noise_dir_from2)
    "noise" "dr6" ["pa1"; "pa2"] 3 2
  = get_noise_matrix_spin0and2 (read_ps_in noise_dir_extra)
      "noise" "dr6" ["pa1"; "pa2"] 3 2.
Proof.
  split; [vm_compute; discriminate|].
  apply (noise_matrix_reads_upper_pairs (read_ps_in noise_dir_from2)
           "noise" "dr6" ["pa1"; "pa2"] 3 2 (read_ps_in noise_dir_extra)).
  intros i j ar1 ar2 Hij H1 H2.
  destruct i as [|[|i]], j as [|[|j]]; simpl in H1, H2;
    try discriminate; try lia;
    injection H1 as <-; injection H2 as <-; vm_compute; reflexivity.
Defined.

Lemma foreground_matrix_shape_witness :
  ∃ l F,
    get_foreground_matrix (loadtxt_in fg_dir_from2) "fg" ["90"; "150"] 4
      = Ok (l, F) ∧
    shaped 2 2 4 F.
Proof.
  eexists _, _. split; [vm_compute; reflexivity|].
  eapply (foreground_matrix_shape (loadtxt_in fg_dir_from2) "fg"
            ["90"; "150"] 4).
  vm_compute; reflexivity.
Defined.

Lemma foreground_matrix_last_axis_witness :
  ∃ l F,
    get_foreground_matrix (loadtxt_in fg_dir_from2) "fg" ["90"; "150"] 4
      = Ok (l, F) ∧
    ∃ f rows, last ["90"; "150"] = Some f ∧
      loadtxt_in fg_dir_from2 (fg_file "fg" f f) = Ok rows ∧
      l = rows.*1 ∧ length l = length rows.
Proof.
  eexists _, _. split; [vm_compute; reflexivity|].
  eapply (foreground_matrix_last_axis (loadtxt_in fg_dir_from2) "fg"
            ["90"; "150"] 4).
  vm_compute; reflexivity.
Defined.

Lemma foreground_matrix_lower_witness :
  ∃ l F,
    get_foreground_matrix (loadtxt_in fg_dir_from2) "fg" ["90"; "150"] 4
      = Ok (l, F) ∧
    ∃ rows lk fk,
      loadtxt_in fg_dir_from2 (fg_file "fg" "90" "150") = Ok rows ∧
      rows !! 1%nat = Some (lk, fk) ∧
      entry F 1 0 3 = Some (fg_rescaled fk lk).
Proof.
  eexists _, _. split; [vm_compute; reflexivity|].
  eapply (foreground_matrix_lower (loadtxt_in fg_dir_from2) "fg"
            ["90"; "150"] 4 _ _ 0 1 "90" "150" 3);
    [vm_compute; reflexivity | lia | reflexivity | reflexivity | lia | lia].
Defined.

Lemma foreground_matrix_reads_upper_pairs_witness :
  loadtxt_in fg_dir_from2 "fg/fg_150x90_TT.dat"
    ≠ loadtxt_in fg_dir_extra "fg/fg_150x90_TT.dat" ∧
  get_foreground_matrix (loadtxt_in fg_dir_from2) "fg" ["90"; "150"] 4
  = get_foreground_matrix (loadtxt_in fg_dir_extra) "fg" ["90"; "150"] 4.
Proof.
  split; [vm_compute; discriminate|].
  apply (foreground_matrix_reads_upper_pairs (loadtxt_in fg_dir_from2)
           (loadtxt_in fg_dir_extra) "fg" ["90"; "150"] 4).
  intros i j f1 f2 Hij H1 H2.
  destruct i as [|[|i]], j as [|[|j]]; simpl in H1, H2;
    try discriminate; try lia;
    injection H1 as <-; injection H2 as <-; vm_compute; reflexivity.
Defined.
